(** * Content negotiation and request signing of gidari

    A shallow embedding of [internal/decode/accept.go] (parsing and ranking
    of an [Accept] header, selection of the decoder) and of
    [internal/web/auth/api_key.go] (the API-key round tripper).

    Go strings are byte strings: they are rendered as [string], whose
    characters are the 256 values of [ascii].  A [float64] is a primitive
    binary64 [float], so that comparisons against NaN behave as in Go.
    A Go [map[string]string] is a [gmap string string].  A run-time panic
    (index out of range) is the [None] of the option monad.

    What the two files call in Go's library comes first.  [strings],
    [encoding/base64], [crypto/sha256] and [crypto/hmac] are written out.
    [strconv.ParseFloat] and [sort.Sort] are parameters of the negotiation:
    what is proved of it holds for every function in their place, under the
    contract that the library documents; [Strconv.ParseFloat],
    [GoSort.insertionSort] and [GoSort.Sort] are there to run it. *)

From Stdlib Require Import ZArith Ascii String List Floats Uint63 Lia.
From Stdlib Require Import DecimalString.
From Stdlib Require Import Permutation Sorted.
From stdpp Require Import base option list sorting strings gmap.

Local Open Scope string_scope.
Local Open Scope list_scope.

Set Warnings "-inexact-float".

(** ** The [strings] package *)

Module Strings.

(** [strings.Split(s, sep)] for a separator of one byte: the pieces of [s]
    between the occurrences of [sep], of which there is always at least one. *)
Fixpoint Split (s : string) (sep : ascii) : list string :=
  match s with
  | EmptyString => [EmptyString]
  | String c s' =>
      if Ascii.eqb c sep then EmptyString :: Split s' sep
      else match Split s' sep with
           | p :: ps => String c p :: ps
           | [] => [String c EmptyString]
           end
  end.

(** The part of [s] before the first [sep] and the part after it, when [sep]
    occurs ([strings.Cut]). *)
Fixpoint Cut (s : string) (sep : ascii) : option (string * string) :=
  match s with
  | EmptyString => None
  | String c s' =>
      if Ascii.eqb c sep then Some (EmptyString, s')
      else match Cut s' sep with
           | Some (before, after) => Some (String c before, after)
           | None => None
           end
  end.

(** [strings.SplitN(s, sep, n)] for a separator of one byte and [n >= 0]:
    no piece for [n = 0], otherwise at most [n] pieces, the last one being
    the unsplit remainder. *)
Fixpoint SplitN (s : string) (sep : ascii) (n : nat) : list string :=
  match n with
  | 0 => []
  | 1 => [s]
  | S n' =>
      match Cut s sep with
      | Some (before, after) => before :: SplitN after sep n'
      | None => [s]
      end
  end.

(** [strings.Join(elems, sep)] for a separator of one byte. *)
Fixpoint Join (elems : list string) (sep : ascii) : string :=
  match elems with
  | [] => EmptyString
  | [e] => e
  | e :: es => e ++ String sep (Join es sep)
  end.

(** The encodings in UTF-8 of the white space of [unicode.IsSpace]:
    U+0009 to U+000D, U+0020, U+0085, U+00A0, U+1680, U+2000 to U+200A,
    U+2028, U+2029, U+202F, U+205F and U+3000. *)
Definition isSpace1 (c : ascii) : bool :=
  let n := nat_of_ascii c in
  (Nat.leb 9 n && Nat.leb n 13) || Nat.eqb n 32.

Definition isSpace2 (c1 c2 : ascii) : bool :=
  Nat.eqb (nat_of_ascii c1) 194
  && (Nat.eqb (nat_of_ascii c2) 133 || Nat.eqb (nat_of_ascii c2) 160).

Definition isSpace3 (c1 c2 c3 : ascii) : bool :=
  let n1 := nat_of_ascii c1 in
  let n2 := nat_of_ascii c2 in
  let n3 := nat_of_ascii c3 in
  (Nat.eqb n1 225 && Nat.eqb n2 154 && Nat.eqb n3 128)
  || (Nat.eqb n1 226 && Nat.eqb n2 128
      && ((Nat.leb 128 n3 && Nat.leb n3 138)
          || Nat.eqb n3 168 || Nat.eqb n3 169 || Nat.eqb n3 175))
  || (Nat.eqb n1 226 && Nat.eqb n2 129 && Nat.eqb n3 159)
  || (Nat.eqb n1 227 && Nat.eqb n2 128 && Nat.eqb n3 128).

(** Leading white space removed, rune by rune. *)
Fixpoint trimLeft (s : list ascii) : list ascii :=
  match s with
  | c1 :: s1 =>
      if isSpace1 c1 then trimLeft s1
      else match s1 with
           | c2 :: s2 =>
               if isSpace2 c1 c2 then trimLeft s2
               else match s2 with
                    | c3 :: s3 => if isSpace3 c1 c2 c3 then trimLeft s3 else s
                    | [] => s
                    end
           | [] => s
           end
  | [] => []
  end.

(** Trailing white space removed, on the reversed bytes: the last rune of a
    string that ends with the encoding of a rune is that rune. *)
Fixpoint trimRightRev (r : list ascii) : list ascii :=
  match r with
  | c1 :: r1 =>
      if isSpace1 c1 then trimRightRev r1
      else match r1 with
           | c2 :: r2 =>
               if isSpace2 c2 c1 then trimRightRev r2
               else match r2 with
                    | c3 :: r3 =>
                        if isSpace3 c3 c2 c1 then trimRightRev r3 else r
                    | [] => r
                    end
           | [] => r
           end
  | [] => []
  end.

(** [strings.TrimSpace(s)]. *)
Definition TrimSpace (s : string) : string :=
  string_of_list_ascii
    (rev (trimRightRev (rev (trimLeft (list_ascii_of_string s))))).

(** [sep] does not occur in [s]. *)
Fixpoint free (sep : ascii) (s : string) : Prop :=
  match s with
  | EmptyString => True
  | String c s' => Ascii.eqb c sep = false /\ free sep s'
  end.

End Strings.

Import Strings.

(** ** The [strconv] package

    [strconv.ParseFloat] belongs to Go's library.  The negotiation takes it
    as a parameter; [ParseFloat] below follows the library on what it
    accepts (decimal and hexadecimal numbers, exponents, underscores, the
    special values) and gives the nearest binary64 value. *)

Module Strconv.

Local Open Scope Z_scope.

Definition isDigit (c : ascii) : bool :=
  let n := nat_of_ascii c in
  Nat.leb 48 n && Nat.leb n 57.

(** The letters [a] to [f], in either case. *)
Definition isHexLetter (c : ascii) : bool :=
  let n := nat_of_ascii c in
  (Nat.leb 97 n && Nat.leb n 102) || (Nat.leb 65 n && Nat.leb n 70).

(** The value of a digit, and of a letter that is a hexadecimal digit. *)
Definition digitValue (c : ascii) : Z :=
  let n := nat_of_ascii c in
  if Nat.leb 97 n then Z.of_nat (n - 87)
  else if Nat.leb 65 n then Z.of_nat (n - 55)
  else Z.of_nat (n - 48).

Definition lower (c : ascii) : ascii :=
  let n := nat_of_ascii c in
  if Nat.leb 65 n && Nat.leb n 90 then ascii_of_nat (n + 32) else c.

Fixpoint toLower (s : string) : string :=
  match s with
  | EmptyString => EmptyString
  | String c s' => String (lower c) (toLower s')
  end.

(** [special] on a whole string: ["NaN"], ["Inf"] and ["Infinity"], the
    last two with an optional sign, in any case. *)
Definition special (s : string) : option float :=
  let t := toLower s in
  if String.eqb t "nan" then Some nan
  else if String.eqb t "inf" || String.eqb t "+inf"
          || String.eqb t "infinity" || String.eqb t "+infinity"
  then Some infinity
  else if String.eqb t "-inf" || String.eqb t "-infinity"
  then Some neg_infinity
  else None.

(** What [readFloat] has read of the mantissa: the digits after the leading
    zeros as a number [mant] in the base, their count [nd], the place [dp]
    of the point among them, and whether a point, a digit and an underscore
    were seen. *)
Record mantissa : Type := mkMantissa {
  mant : Z;
  nd : Z;
  dp : Z;
  sawdot : bool;
  sawdigits : bool;
  underscores : bool
}.

(** The loop of [readFloat] over the mantissa, in the base 10 or 16: the
    state at the first character that is no part of it, and the rest of the
    string from that character on. *)
Fixpoint readMantissa (hex : bool) (s : string) (st : mantissa)
  : mantissa * string :=
  match s with
  | EmptyString => (st, s)
  | String c s' =>
      if Ascii.eqb c "_" then
        readMantissa hex s'
          (mkMantissa (mant st) (nd st) (dp st) (sawdot st) (sawdigits st) true)
      else if Ascii.eqb c "." then
        if sawdot st then (st, s)
        else readMantissa hex s'
               (mkMantissa (mant st) (nd st) (nd st) true (sawdigits st)
                           (underscores st))
      else if isDigit c then
        if Ascii.eqb c "0" && (nd st =? 0)%Z then
          readMantissa hex s'
            (mkMantissa (mant st) (nd st) (dp st - 1) (sawdot st) true
                        (underscores st))
        else
          readMantissa hex s'
            (mkMantissa ((if hex then 16 else 10) * mant st + digitValue c)
                        (nd st + 1) (dp st) (sawdot st) true (underscores st))
      else if hex && isHexLetter c then
        readMantissa hex s'
          (mkMantissa (16 * mant st + digitValue c)
                      (nd st + 1) (dp st) (sawdot st) true (underscores st))
      else (st, s)
  end.

(** The digits of the exponent: the exponent, which is no longer added to
    from 10000 on, whether an underscore was seen, and the rest. *)
Fixpoint readExponent (s : string) (e : Z) (underscore : bool)
  : Z * bool * string :=
  match s with
  | EmptyString => (e, underscore, s)
  | String c s' =>
      if Ascii.eqb c "_" then readExponent s' e true
      else if isDigit c then
        readExponent s' (if (e <? 10000)%Z then 10 * e + digitValue c else e)
                     underscore
      else (e, underscore, s)
  end.

(** [underscoreOK(s)]: an underscore stands only between two digits, or
    between a base prefix and a digit.  [saw] is 0 at the start, 1 after a
    digit or a base prefix, 2 after an underscore and 3 after anything else. *)
Fixpoint underscoreLoop (hex : bool) (s : string) (saw : nat) : bool :=
  match s with
  | EmptyString => negb (Nat.eqb saw 2)
  | String c s' =>
      if isDigit c || (hex && isHexLetter c) then underscoreLoop hex s' 1
      else if Ascii.eqb c "_" then
        if Nat.eqb saw 1 then underscoreLoop hex s' 2 else false
      else if Nat.eqb saw 2 then false
      else underscoreLoop hex s' 3
  end.

Definition underscoreOK (s : string) : bool :=
  let s :=
    match s with
    | String "+" s' => s'
    | String "-" s' => s'
    | _ => s
    end in
  match s with
  | String "0" (String c s') =>
      let l := lower c in
      if Ascii.eqb l "b" || Ascii.eqb l "o" || Ascii.eqb l "x"
      then underscoreLoop (Ascii.eqb l "x") s' 1
      else underscoreLoop false s 0
  | _ => underscoreLoop false s 0
  end.

(** The binary64 value nearest to [m * 10 ^ e], ties to the even mantissa;
    the infinity when the number is too large. *)
Definition nearestDecimal (neg : bool) (m : positive) (e : Z) : spec_float :=
  if (0 <=? e)%Z
  then binary_normalize prec emax
         (if neg then Z.opp (Zpos m * 10 ^ e) else Zpos m * 10 ^ e) 0 neg
  else SFdiv prec emax (S754_finite neg m 0)
             (S754_finite false (Z.to_pos (10 ^ (- e))) 0).

(** [strconv.ParseFloat(s, 64)]; [None] stands for an error, which is a
    syntax error or a number that is out of range.  The library computes the
    binary64 value nearest to the number written, by several ways that give
    the same value; here it is computed from the number itself. *)
Definition ParseFloat (s : string) : option float :=
  match special s with
  | Some f => Some f
  | None =>
      let '(neg, t) :=
        match s with
        | String "+" s' => (false, s')
        | String "-" s' => (true, s')
        | _ => (false, s)
        end in
      let '(hex, t) :=
        match t with
        | String "0" (String x (String c t')) =>
            if Ascii.eqb (lower x) "x" then (true, String c t') else (false, t)
        | _ => (false, t)
        end in
      let '(st, t) := readMantissa hex t (mkMantissa 0 0 0 false false false) in
      if negb (sawdigits st) then None
      else
        let dp := if sawdot st then dp st else nd st in
        let dp := if hex then 4 * dp else dp in
        let ndBits := if hex then 4 * nd st else nd st in
        let exponent : option (Z * bool * string) :=
          match t with
          | String c t' =>
              if Ascii.eqb (lower c) (if hex then "p" else "e")%char then
                match t' with
                | EmptyString => None
                | String d t'' =>
                    let '(esign, t') :=
                      if Ascii.eqb d "+" then (1, t'')
                      else if Ascii.eqb d "-" then (-1, t'')
                      else (1, t') in
                    match t' with
                    | String d' _ =>
                        if isDigit d' then
                          let '(e, u, rest) := readExponent t' 0 false in
                          Some (dp + e * esign, u, rest)
                        else None
                    | EmptyString => None
                    end
                end
              else if hex then None
              else Some (dp, false, t)
          | EmptyString => if hex then None else Some (dp, false, t)
          end%Z in
        match exponent with
        | None => None
        | Some (dp, u, rest) =>
            if negb (String.eqb rest "") then None
            else if (underscores st || u) && negb (underscoreOK s) then None
            else
              match mant st with
              | Zpos m =>
                  let f :=
                    if hex then
                      binary_normalize prec emax
                        (if neg then Zneg m else Zpos m) (dp - ndBits) neg
                    else if (310 <? dp)%Z then S754_infinity neg
                    else if (dp <? -330)%Z then S754_zero neg
                    else nearestDecimal neg m (dp - ndBits) in
                  match f with
                  | S754_infinity _ => None
                  | _ => Some (SF2Prim f)
                  end
              | _ => Some (if neg then neg_zero else zero)
              end
        end
  end.

End Strconv.

(** ** The [encoding/base64] package *)

Module Base64.

Local Open Scope Z_scope.

Definition bytes (s : string) : list Z :=
  map (fun c => Z.of_nat (nat_of_ascii c)) (list_ascii_of_string s).

Definition ofBytes (l : list Z) : string :=
  string_of_list_ascii (map (fun b => ascii_of_nat (Z.to_nat b)) l).

(** The alphabet of [StdEncoding]. *)
Definition encodeStd : string :=
  "ABCDEFGHIJKLMNOPQRSTUVWXYZabcdefghijklmnopqrstuvwxyz0123456789+/".

Definition encodeChar (v : Z) : ascii :=
  match String.get (Z.to_nat v) encodeStd with
  | Some c => c
  | None => "="%char
  end.

(** The value of a character of the alphabet. *)
Definition decodeChar (c : ascii) : option Z :=
  let n := Z.of_nat (nat_of_ascii c) in
  if (65 <=? n) && (n <=? 90) then Some (n - 65)
  else if (97 <=? n) && (n <=? 122) then Some (n - 71)
  else if (48 <=? n) && (n <=? 57) then Some (n + 4)
  else if n =? 43 then Some 62
  else if n =? 47 then Some 63
  else None.

(** [StdEncoding.EncodeToString]: three bytes give four characters, and the
    last group is padded with [=]. *)
Fixpoint encode (src : list Z) : list ascii :=
  match src with
  | [] => []
  | [b0] =>
      [encodeChar (Z.shiftr b0 2);
       encodeChar (Z.land (Z.shiftl b0 4) 63); "="%char; "="%char]
  | [b0; b1] =>
      [encodeChar (Z.shiftr b0 2);
       encodeChar (Z.land (Z.lor (Z.shiftl b0 4) (Z.shiftr b1 4)) 63);
       encodeChar (Z.land (Z.shiftl b1 2) 63); "="%char]
  | b0 :: b1 :: b2 :: rest =>
      encodeChar (Z.shiftr b0 2)
      :: encodeChar (Z.land (Z.lor (Z.shiftl b0 4) (Z.shiftr b1 4)) 63)
      :: encodeChar (Z.land (Z.lor (Z.shiftl b1 2) (Z.shiftr b2 6)) 63)
      :: encodeChar (Z.land b2 63)
      :: encode rest
  end.

Definition EncodeToString (src : string) : string :=
  string_of_list_ascii (encode (bytes src)).

(** [StdEncoding.DecodeString] once the line breaks are gone: groups of four
    characters, the last of which may end with one or two [=]; the bits
    that do not fill a byte are dropped. *)
Fixpoint decode (src : list ascii) : option (list Z) :=
  match src with
  | [] => Some []
  | c0 :: c1 :: c2 :: c3 :: rest =>
      v0 ← decodeChar c0;
      v1 ← decodeChar c1;
      let b0 := Z.lor (Z.shiftl v0 2) (Z.shiftr v1 4) in
      match decodeChar c2, decodeChar c3 with
      | Some v2, Some v3 =>
          out ← decode rest;
          Some (b0
                :: Z.land (Z.lor (Z.shiftl v1 4) (Z.shiftr v2 2)) 255
                :: Z.land (Z.lor (Z.shiftl v2 6) v3) 255
                :: out)
      | Some v2, None =>
          if Ascii.eqb c3 "=" && Nat.eqb (List.length rest) 0
          then Some [b0; Z.land (Z.lor (Z.shiftl v1 4) (Z.shiftr v2 2)) 255]
          else None
      | None, _ =>
          if Ascii.eqb c2 "=" && Ascii.eqb c3 "=" && Nat.eqb (List.length rest) 0
          then Some [b0]
          else None
      end
  | _ => None
  end.

Definition isLineBreak (c : ascii) : bool :=
  Ascii.eqb c "010" || Ascii.eqb c "013".

Definition DecodeString (s : string) : option string :=
  out ← decode (List.filter (fun c => negb (isLineBreak c)) (list_ascii_of_string s));
  Some (ofBytes out).

End Base64.

(** ** The [crypto/sha256] and [crypto/hmac] packages *)

Module SHA256.

Local Open Scope Z_scope.

Definition add32 (x y : Z) : Z := Z.land (x + y) 4294967295.

Definition rotr (n x : Z) : Z :=
  Z.lor (Z.shiftr x n) (Z.land (Z.shiftl x (32 - n)) 4294967295).

Definition Ch (x y z : Z) : Z :=
  Z.lxor (Z.land x y) (Z.land (Z.lxor x 4294967295) z).

Definition Maj (x y z : Z) : Z :=
  Z.lxor (Z.lxor (Z.land x y) (Z.land x z)) (Z.land y z).

Definition Sigma0 (x : Z) : Z := Z.lxor (Z.lxor (rotr 2 x) (rotr 13 x)) (rotr 22 x).
Definition Sigma1 (x : Z) : Z := Z.lxor (Z.lxor (rotr 6 x) (rotr 11 x)) (rotr 25 x).
Definition sigma0 (x : Z) : Z := Z.lxor (Z.lxor (rotr 7 x) (rotr 18 x)) (Z.shiftr x 3).
Definition sigma1 (x : Z) : Z := Z.lxor (Z.lxor (rotr 17 x) (rotr 19 x)) (Z.shiftr x 10).

(** The first [n] primes among the numbers from 2 to 311. *)
Definition isPrime (p : Z) : bool :=
  forallb (fun d => negb (p mod Z.of_nat d =? 0))
          (seq 2 (Z.to_nat (Z.sqrt p) - 1)).

Definition primes (n : nat) : list Z :=
  firstn n (List.filter isPrime (map Z.of_nat (seq 2 310))).

(** The integer part of a cube root below 2 to the power [bits], one bit at
    a time from the highest. *)
Fixpoint cubeRoot (bits : nat) (r n : Z) : Z :=
  match bits with
  | O => r
  | S bits' =>
      let r' := r + Z.shiftl 1 (Z.of_nat bits') in
      cubeRoot bits' (if r' * r' * r' <=? n then r' else r) n
  end.

(** The round constants: the first 32 bits of the fractional parts of the
    cube roots of the first 64 primes. *)
Definition K : list Z :=
  Eval vm_compute in
    map (fun p => Z.land (cubeRoot 40 0 (Z.shiftl p 96)) 4294967295) (primes 64).

(** The initial hash value: the first 32 bits of the fractional parts of the
    square roots of the first 8 primes. *)
Definition init : list Z :=
  Eval vm_compute in
    map (fun p => Z.land (Z.sqrt (Z.shiftl p 64)) 4294967295) (primes 8).

(** The message followed by the bit 1, zeros and its length in bits on
    eight bytes, a multiple of 64 bytes in all. *)
Definition pad (msg : list Z) : list Z :=
  let len := Z.of_nat (List.length msg) in
  let zeros := Z.to_nat ((55 - len) mod 64) in
  msg ++ [128] ++ repeat 0 zeros
      ++ map (fun i => Z.land (Z.shiftr (8 * len) (8 * (7 - Z.of_nat i))) 255)
             (seq 0 8).

(** Big-endian words of four bytes. *)
Fixpoint words (l : list Z) : list Z :=
  match l with
  | b0 :: b1 :: b2 :: b3 :: rest =>
      (Z.shiftl b0 24 + Z.shiftl b1 16 + Z.shiftl b2 8 + b3) :: words rest
  | _ => []
  end.

(** The message schedule, latest word first: [n] more words after [w]. *)
Fixpoint schedule (n : nat) (w : list Z) : list Z :=
  match n with
  | O => w
  | S n' =>
      let wt :=
        add32 (add32 (sigma1 (nth 1 w 0)) (nth 6 w 0))
              (add32 (sigma0 (nth 14 w 0)) (nth 15 w 0)) in
      schedule n' (wt :: w)
  end.

Definition round (st : list Z) (kw : Z * Z) : list Z :=
  match st with
  | [a; b; c; d; e; f; g; h] =>
      let t1 := add32 (add32 (add32 h (Sigma1 e)) (add32 (Ch e f g) (fst kw)))
                      (snd kw) in
      let t2 := add32 (Sigma0 a) (Maj a b c) in
      [add32 t1 t2; a; b; c; add32 d t1; e; f; g]
  | _ => st
  end.

Definition compress (h : list Z) (block : list Z) : list Z :=
  let w := rev (schedule 48 (rev (words block))) in
  let st := fold_left round (combine K w) h in
  map (fun p => add32 (fst p) (snd p)) (combine h st).

Fixpoint blocks (fuel : nat) (h : list Z) (l : list Z) : list Z :=
  match fuel with
  | O => h
  | S fuel' =>
      match l with
      | [] => h
      | _ => blocks fuel' (compress h (firstn 64 l)) (skipn 64 l)
      end
  end.

Definition wordBytes (w : Z) : list Z :=
  [Z.land (Z.shiftr w 24) 255; Z.land (Z.shiftr w 16) 255;
   Z.land (Z.shiftr w 8) 255; Z.land w 255].

(** [sha256.Sum256] on bytes. *)
Definition sum (msg : list Z) : list Z :=
  let p := pad msg in
  flat_map wordBytes (blocks (List.length p) init p).

(** [hmac.New(sha256.New, key)], [Write(message)] and [Sum(nil)]. *)
Definition hmac (key message : list Z) : list Z :=
  let key := if (64 <? Z.of_nat (List.length key)) then sum key else key in
  let key := key ++ repeat 0 (64 - List.length key)%nat in
  let ipad := map (fun b => Z.lxor b 54) key in
  let opad := map (fun b => Z.lxor b 92) key in
  sum (opad ++ sum (ipad ++ message)).

End SHA256.

(** ** The [sort] package

    [sort.Sort] belongs to Go's library, not to this repository.  Its
    documentation promises an ascending order for a [Less] that is a
    transitive ordering, and excludes stability: equal elements may come out
    in any order.  [SortSpec] is that contract; [insertionSort] and [Sort]
    follow the library's code as shipped since Go 1.19 (pattern-defeating
    quicksort, with insertion sort on at most twelve elements). *)

Module GoSort.

Local Close Scope string_scope.
Local Open Scope nat_scope.

Section Generic.

Context {A : Type}.
Variable less : A -> A -> bool.

(** No element must sort before one that precedes it. *)
Definition ascending (a : list A) : Prop :=
  StronglySorted (fun x y => less y x = false) a.

(** What [sort.Interface] asks of [Less], on the elements of [a]: a strict
    ordering that is transitive, as is its complement. *)
Definition transitiveOrdering (a : list A) : Prop :=
  forall x y z, In x a -> In y a -> In z a ->
    less x x = false
    /\ (less x y = true -> less y z = true -> less x z = true)
    /\ (less x y = false -> less y z = false -> less x z = false).

(** The contract of [sort.Sort]. *)
Record SortSpec (Sort : list A -> list A) : Prop := {
  Sort_permutation : forall a, Permutation (Sort a) a;
  Sort_ascending : forall a, transitiveOrdering a -> ascending (Sort a)
}.

(** [data.Less(i, j)] and [data.Swap(i, j)] on a slice. *)
Definition lessAt (data : list A) (i j : nat) : bool :=
  match data !! i, data !! j with
  | Some x, Some y => less x y
  | _, _ => false
  end.

Definition swap (data : list A) (i j : nat) : list A :=
  match data !! i, data !! j with
  | Some x, Some y => <[j := x]> (<[i := y]> data)
  | _, _ => data
  end.

(** The inner loop of [insertionSort]: [x] moves left past the elements it
    must sort before; [sorted] is the part already in order, last element
    first. *)
Fixpoint sink (x : A) (sorted : list A) : list A :=
  match sorted with
  | y :: sorted' => if less x y then y :: sink x sorted' else x :: sorted
  | [] => [x]
  end.

(** The sorted part that [sink] works on, last element first: no element
    must sort before one that follows it in this list. *)
Definition descending (sorted : list A) : Prop :=
  StronglySorted (fun y x => less y x = false) sorted.

(** [insertionSort(data, 0, len(data))]. *)
Definition insertionSort (data : list A) : list A :=
  rev (fold_left (fun sorted x => sink x sorted) data []).

(** [insertionSort(data, a, b)]. *)
Definition insertionSortRange (data : list A) (a b : nat) : list A :=
  take a data ++ insertionSort (take (b - a) (drop a data)) ++ drop b data.

(** [siftDown(data, lo, hi, first)]; the loop turns fewer than [hi] times. *)
Fixpoint siftDown (fuel : nat) (data : list A) (root hi first : nat) : list A :=
  match fuel with
  | 0 => data
  | S fuel' =>
      let child := 2 * root + 1 in
      if hi <=? child then data
      else
        let child :=
          if (child + 1 <? hi) && lessAt data (first + child) (first + child + 1)
          then child + 1 else child in
        if negb (lessAt data (first + root) (first + child)) then data
        else siftDown fuel' (swap data (first + root) (first + child)) child hi first
  end.

(** [heapSort(data, a, b)]. *)
Definition heapSort (data : list A) (a b : nat) : list A :=
  let first := a in
  let lo := 0 in
  let hi := b - a in
  let data :=
    fold_left (fun d i => siftDown hi d i hi first)
              (rev (seq 0 (S ((hi - 1) / 2)))) data in
  fold_left (fun d i => siftDown hi (swap d first (first + i)) lo i first)
            (rev (seq 0 hi)) data.

(** [reverseRange(data, a, b)]. *)
Fixpoint reverseLoop (fuel : nat) (data : list A) (i j : nat) : list A :=
  match fuel with
  | 0 => data
  | S fuel' =>
      if i <? j then reverseLoop fuel' (swap data i j) (i + 1) (j - 1) else data
  end.

Definition reverseRange (data : list A) (a b : nat) : list A :=
  reverseLoop (b - a) data a (b - 1).

(** [order2], [median] and [medianAdjacent]: indices only, with the count of
    the exchanges that sorting them would take. *)
Definition order2 (data : list A) (a b swaps : nat) : nat * nat * nat :=
  if lessAt data b a then (b, a, swaps + 1) else (a, b, swaps).

Definition median (data : list A) (a b c swaps : nat) : nat * nat :=
  let '(a, b, swaps) := order2 data a b swaps in
  let '(b, c, swaps) := order2 data b c swaps in
  let '(a, b, swaps) := order2 data a b swaps in
  (b, swaps).

Definition medianAdjacent (data : list A) (a swaps : nat) : nat * nat :=
  median data (a - 1) a (a + 1) swaps.

Inductive sortedHint : Set :=
| unknownHint
| increasingHint
| decreasingHint.

(** [choosePivot(data, a, b)]. *)
Definition choosePivot (data : list A) (a b : nat) : nat * sortedHint :=
  let l := b - a in
  let i := a + l / 4 * 1 in
  let j := a + l / 4 * 2 in
  let k := a + l / 4 * 3 in
  let '(j, swaps) :=
    if 8 <=? l then
      let '(i, j, k, swaps) :=
        if 50 <=? l then
          let '(i, swaps) := medianAdjacent data i 0 in
          let '(j, swaps) := medianAdjacent data j swaps in
          let '(k, swaps) := medianAdjacent data k swaps in
          (i, j, k, swaps)
        else (i, j, k, 0) in
      median data i j k swaps
    else (j, 0) in
  match swaps with
  | 0 => (j, increasingHint)
  | 12 => (j, decreasingHint)
  | _ => (j, unknownHint)
  end.

(** The loops of [partialInsertionSort]. *)
Fixpoint skipOrdered (fuel : nat) (data : list A) (i b : nat) : nat :=
  match fuel with
  | 0 => i
  | S fuel' =>
      if (i <? b) && negb (lessAt data i (i - 1))
      then skipOrdered fuel' data (i + 1) b else i
  end.

Fixpoint shiftLeft (data : list A) (j : nat) : list A :=
  match j with
  | 0 => data
  | S j' => if negb (lessAt data j j') then data else shiftLeft (swap data j j') j'
  end.

Fixpoint shiftRight (fuel : nat) (data : list A) (j b : nat) : list A :=
  match fuel with
  | 0 => data
  | S fuel' =>
      if j <? b then
        if negb (lessAt data j (j - 1)) then data
        else shiftRight fuel' (swap data j (j - 1)) (j + 1) b
      else data
  end.

Fixpoint partialInsertionSteps (steps : nat) (data : list A) (a b i : nat)
  : list A * bool :=
  match steps with
  | 0 => (data, false)
  | S steps' =>
      let i := skipOrdered b data i b in
      if i =? b then (data, true)
      else if b - a <? 50 then (data, false)
      else
        let data := swap data i (i - 1) in
        let data := if 2 <=? i - a then shiftLeft data (i - 1) else data in
        let data := if 2 <=? b - i then shiftRight b data (i + 1) b else data in
        partialInsertionSteps steps' data a b i
  end.

(** [partialInsertionSort(data, a, b)]. *)
Definition partialInsertionSort (data : list A) (a b : nat) : list A * bool :=
  partialInsertionSteps 5 data a b (a + 1).

(** The scans of [partition]: [for i <= j && data.Less(i, a) { i++ }] and
    [for i <= j && !data.Less(j, a) { j-- }]. *)
Fixpoint scanUp (fuel : nat) (data : list A) (i j a : nat) : nat :=
  match fuel with
  | 0 => i
  | S fuel' =>
      if (i <=? j) && lessAt data i a then scanUp fuel' data (i + 1) j a else i
  end.

Fixpoint scanDown (fuel : nat) (data : list A) (i j a : nat) : nat :=
  match fuel with
  | 0 => j
  | S fuel' =>
      if (i <=? j) && negb (lessAt data j a)
      then scanDown fuel' data i (j - 1) a else j
  end.

Fixpoint partitionLoop (fuel : nat) (data : list A) (i j a : nat)
  : list A * nat * nat :=
  match fuel with
  | 0 => (data, i, j)
  | S fuel' =>
      let i := scanUp (S j) data i j a in
      let j := scanDown (S j) data i j a in
      if j <? i then (data, i, j)
      else partitionLoop fuel' (swap data i j) (i + 1) (j - 1) a
  end.

(** [partition(data, a, b, pivot)]: the slice, the place of the pivot and
    whether the slice was already partitioned. *)
Definition partition (data : list A) (a b pivot : nat) : list A * nat * bool :=
  let data := swap data a pivot in
  let i := scanUp b data (a + 1) (b - 1) a in
  let j := scanDown b data i (b - 1) a in
  if j <? i then (swap data j a, j, true)
  else
    let data := swap data i j in
    let '(data, i, j) := partitionLoop b data (i + 1) (j - 1) a in
    (swap data j a, j, false).

(** The scans of [partitionEqual]: [for i <= j && !data.Less(a, i) { i++ }]
    and [for i <= j && data.Less(a, j) { j-- }]. *)
Fixpoint scanUpEqual (fuel : nat) (data : list A) (i j a : nat) : nat :=
  match fuel with
  | 0 => i
  | S fuel' =>
      if (i <=? j) && negb (lessAt data a i)
      then scanUpEqual fuel' data (i + 1) j a else i
  end.

Fixpoint scanDownEqual (fuel : nat) (data : list A) (i j a : nat) : nat :=
  match fuel with
  | 0 => j
  | S fuel' =>
      if (i <=? j) && lessAt data a j
      then scanDownEqual fuel' data i (j - 1) a else j
  end.

Fixpoint partitionEqualLoop (fuel : nat) (data : list A) (i j a : nat)
  : list A * nat :=
  match fuel with
  | 0 => (data, i)
  | S fuel' =>
      let i := scanUpEqual (S j) data i j a in
      let j := scanDownEqual (S j) data i j a in
      if j <? i then (data, i)
      else partitionEqualLoop fuel' (swap data i j) (i + 1) (j - 1) a
  end.

(** [partitionEqual(data, a, b, pivot)]. *)
Definition partitionEqual (data : list A) (a b pivot : nat) : list A * nat :=
  partitionEqualLoop b (swap data a pivot) (a + 1) (b - 1) a.

(** [bits.Len(uint(n))]. *)
Definition bitsLen (n : nat) : nat :=
  if n =? 0 then 0 else S (Nat.log2 n).

(** [breakPatterns(data, a, b)]: the library exchanges a few elements of
    the range, at places that it draws from a pseudo-random generator.  It
    is taken as it comes: what is proved of the sort holds whatever this
    function does. *)
Variable breakPatterns : list A -> nat -> nat -> list A.

(** [pdqsort(data, a, b, limit)].  Every turn of its loop and every call of
    itself shortens the range, so that [fuel] beyond the length of the slice
    is never used up. *)
Fixpoint pdqsort (fuel : nat) (data : list A) (a b limit : nat)
    (wasBalanced wasPartitioned : bool) : list A :=
  match fuel with
  | 0 => data
  | S fuel' =>
      let length := b - a in
      if length <=? 12 then insertionSortRange data a b
      else if limit =? 0 then heapSort data a b
      else
        let data := if wasBalanced then data else breakPatterns data a b in
        let limit := if wasBalanced then limit else limit - 1 in
        let '(pivot, hint) := choosePivot data a b in
        let '(data, pivot, hint) :=
          match hint with
          | decreasingHint =>
              (reverseRange data a b, (b - 1) - (pivot - a), increasingHint)
          | _ => (data, pivot, hint)
          end in
        let '(data, done) :=
          match hint with
          | increasingHint =>
              if wasBalanced && wasPartitioned
              then partialInsertionSort data a b else (data, false)
          | _ => (data, false)
          end in
        if done then data
        else if (0 <? a) && negb (lessAt data (a - 1) pivot) then
          let '(data, mid) := partitionEqual data a b pivot in
          pdqsort fuel' data mid b limit wasBalanced wasPartitioned
        else
          let '(data, mid, alreadyPartitioned) := partition data a b pivot in
          let leftLen := mid - a in
          let rightLen := b - mid in
          let balanceThreshold := length / 8 in
          if leftLen <? rightLen then
            let data := pdqsort fuel' data a mid limit true true in
            pdqsort fuel' data (mid + 1) b limit
                    (balanceThreshold <=? leftLen) alreadyPartitioned
          else
            let data := pdqsort fuel' data (mid + 1) b limit true true in
            pdqsort fuel' data a mid limit
                    (balanceThreshold <=? rightLen) alreadyPartitioned
  end.

(** [sort.Sort(data)]. *)
Definition Sort (data : list A) : list A :=
  let n := length data in
  if n <=? 1 then data
  else pdqsort (S n) data 0 n (bitsLen n) true true.

End Generic.

End GoSort.

Local Open Scope string_scope.
Local Open Scope list_scope.

(** ** The [decode] package: [accept.go] *)

Module Decode.

(** [decodeType], the decoder chosen for a request. *)
Inductive decodeType : Set :=
| decodeTypeUnknown
| decodeTypeJSON.

(** [accept], a parsed range of the header. *)
Record accept : Type := mkAccept {
  typ : string;
  subtype : string;
  qualityFactor : float;
  extensions : gmap string string
}.

Definition setQualityFactor (a : accept) (q : float) : accept :=
  mkAccept (typ a) (subtype a) q (extensions a).

Definition setExtension (a : accept) (name val : string) : accept :=
  mkAccept (typ a) (subtype a) (qualityFactor a) (<[name := val]> (extensions a)).

(** [AcceptSlice] is a slice of [accept]. *)
Abbreviation AcceptSlice := (list accept).

(** The body of [AcceptSlice.Less] on the two elements it compares. *)
Definition lessAccept (x y : accept) : bool :=
  if PrimFloat.ltb (qualityFactor y) (qualityFactor x) then true
  else if PrimFloat.ltb (qualityFactor x) (qualityFactor y) then false
  else if negb (String.eqb (typ x) "*") && String.eqb (typ y) "*" then true
  else if String.eqb (typ x) "*" && negb (String.eqb (typ y) "*") then false
  else if negb (String.eqb (subtype x) "*") && String.eqb (subtype y) "*" then true
  else if String.eqb (subtype x) "*" && negb (String.eqb (subtype y) "*") then false
  else if Nat.ltb (size (extensions y)) (size (extensions x)) then true
  else false.

(** [AcceptSlice.Len], [AcceptSlice.Less], [AcceptSlice.Swap]: the methods of
    [sort.Interface]; an index out of range panics. *)
Definition Len (a : AcceptSlice) : nat := length a.

Definition Less (a : AcceptSlice) (i j : nat) : option bool :=
  x ← a !! i; y ← a !! j; Some (lessAccept x y).

Definition Swap (a : AcceptSlice) (i j : nat) : option AcceptSlice :=
  x ← a !! i; y ← a !! j; Some (<[j := x]> (<[i := y]> a)).

(** [fmt.Errorf(errInvalidTypeSubtype, t)]. *)
Definition errInvalidTypeSubtype (t : string) : string :=
  "accept: Invalid type '" ++ t ++ "'.".

(** [parseMediaRange]: the parameters and the type/subtype pair of a range,
    with the error when the pair has more than two segments. *)
Definition parseMediaRange (mediaRange : string)
  : option (list string * list string * option string) :=
  let rangeParams := Split mediaRange ";" in
  rp0 ← rangeParams !! 0;
  let typeSubtype := Split rp0 "/" in
  if decide (2 < length typeSubtype) then
    Some (rangeParams, typeSubtype, Some (errInvalidTypeSubtype rp0))
  else
    let typeSubtype := typeSubtype ++ ["*"] in
    t0 ← typeSubtype !! 0;
    let typeSubtype := <[0 := TrimSpace t0]> typeSubtype in
    t1 ← typeSubtype !! 1;
    let typeSubtype := <[1 := TrimSpace t1]> typeSubtype in
    t0 ← typeSubtype !! 0;
    let typeSubtype :=
      if String.eqb t0 "" then <[0 := "*"]> typeSubtype else typeSubtype in
    t1 ← typeSubtype !! 1;
    let typeSubtype :=
      if String.eqb t1 "" then <[1 := "*"]> typeSubtype else typeSubtype in
    Some (rangeParams, typeSubtype, None).

Section Negotiation.

(** [strconv.ParseFloat(s, 64)]: the value, or [None] when the error is not
    nil. *)
Variable ParseFloat : string -> option float.

(** [sort.Sort] on an [AcceptSlice]. *)
Variable Sort : AcceptSlice -> AcceptSlice.

(** The loop over [rangeParams[1:]] of [parseAcceptHeader]: the entry and
    [validParams] when the loop is left. *)
Fixpoint validateParams (params : list string) (acc : accept)
  : option (accept * bool) :=
  match params with
  | [] => Some (acc, true)
  | v :: params' =>
      let nameVal := SplitN v "=" 2 in
      if negb (Nat.eqb (length nameVal) 2) then Some (acc, false)
      else
        nv1 ← nameVal !! 1;
        let nameVal := <[1 := TrimSpace nv1]> nameVal in
        nv0 ← nameVal !! 0;
        let name := TrimSpace nv0 in
        nv1 ← nameVal !! 1;
        if String.eqb name "q" then
          match ParseFloat nv1 with
          | None => Some (acc, false)
          | Some qval =>
              if PrimFloat.ltb qval 0 then Some (acc, false)
              else
                let qval := if PrimFloat.ltb 1 qval then 1%float else qval in
                validateParams params' (setQualityFactor acc qval)
          end
        else validateParams params' (setExtension acc name nv1)
  end.

(** One turn of the loop over [mediaRanges]. *)
Definition acceptRange (accepted : AcceptSlice) (mediaRange : string)
  : option AcceptSlice :=
  '(rangeParams, typeSubtype, err) ← parseMediaRange mediaRange;
  match err with
  | Some _ => Some accepted
  | None =>
      t0 ← typeSubtype !! 0;
      t1 ← typeSubtype !! 1;
      let acc := mkAccept t0 t1 1%float ∅ in
      if Nat.eqb (length rangeParams) 1 then Some (accepted ++ [acc])
      else
        match rangeParams with
        | [] => None
        | _ :: params =>
            '(acc, validParams) ← validateParams params acc;
            if validParams : bool then Some (accepted ++ [acc])
            else Some accepted
        end
  end.

Fixpoint acceptRanges (mediaRanges : list string) (accepted : AcceptSlice)
  : option AcceptSlice :=
  match mediaRanges with
  | [] => Some accepted
  | mediaRange :: rest =>
      accepted ← acceptRange accepted mediaRange;
      acceptRanges rest accepted
  end.

(** [parseAcceptHeader]. *)
Definition parseAcceptHeader (header : string) : option AcceptSlice :=
  let mediaRanges := Split header "," in
  accepted ← acceptRanges mediaRanges [];
  Some (Sort accepted).

(** The loop of [bestFitDecodeType] over the ranked entries. *)
Fixpoint bestFit (accepted : AcceptSlice) : decodeType :=
  match accepted with
  | [] => decodeTypeUnknown
  | a :: rest =>
      if String.eqb (typ a) "*" && String.eqb (subtype a) "*"
      then decodeTypeJSON
      else if String.eqb (typ a) "application"
              && (String.eqb (subtype a) "json" || String.eqb (subtype a) "*")
      then decodeTypeJSON
      else bestFit rest
  end.

(** [bestFitDecodeType]. *)
Definition bestFitDecodeType (header : string) : option decodeType :=
  accepted ← parseAcceptHeader header;
  if Nat.eqb (length accepted) 0 then Some decodeTypeJSON
  else Some (bestFit accepted).

(** The entries that one range adds to [accepted]: none or one. *)
Definition rangeEntries (mediaRange : string) : AcceptSlice :=
  default [] (acceptRange [] mediaRange).

End Negotiation.

(** The number of segments of the type/subtype pair of a range. *)
Definition typeSubtypeSegments (mediaRange : string) : nat :=
  match Split mediaRange ";" with
  | rp0 :: _ => length (Split rp0 "/")
  | [] => 0
  end.

(** A quality factor between 0 and 1. *)
Definition unitInterval (q : float) : Prop :=
  PrimFloat.leb 0 q = true /\ PrimFloat.leb q 1 = true.

(** What the checks on a parsed quality factor leave: a value between 0 and
    1, or NaN, which passes both comparisons. *)
Definition clamped (q : float) : Prop :=
  unitInterval q \/ PrimFloat.is_nan q = true.

(** [""] replaced by ["*"]. *)
Definition orStar (s : string) : string := if String.eqb s "" then "*" else s.

(** A parameter that makes [validParams] false: it has no [=], or its name
    is [q] and its value does not parse or is negative. *)
Definition invalidParam (ParseFloat : string -> option float) (v : string) : Prop :=
  match Cut v "=" with
  | None => True
  | Some (name, val) =>
      TrimSpace name = "q"
      /\ match ParseFloat (TrimSpace val) with
         | None => True
         | Some qval => PrimFloat.ltb qval 0 = true
         end
  end.

(** Two entries that are equal on the keys of [Less]: quality factors that
    are equal as [==] has it (0 and -0 are, NaN is equal to nothing), both
    types wildcards or neither, both subtypes wildcards or neither, and as
    many extensions. *)
Definition sameRank (x y : accept) : bool :=
  PrimFloat.eqb (qualityFactor x) (qualityFactor y)
  && Bool.eqb (String.eqb (typ x) "*") (String.eqb (typ y) "*")
  && Bool.eqb (String.eqb (subtype x) "*") (String.eqb (subtype y) "*")
  && Nat.eqb (size (extensions x)) (size (extensions y)).

(** Where a binary64 value that is not NaN stands among the others: below
    zero or above, then by exponent, then by mantissa. *)
Definition SFrank (f : spec_float) : Z * Z * Z :=
  match f with
  | S754_zero _ => (0, 0, 0)%Z
  | S754_infinity true => (-2, 0, 0)%Z
  | S754_infinity false => (2, 0, 0)%Z
  | S754_nan => (3, 0, 0)%Z
  | S754_finite true m e => (-1, - e, - Z.pos m)%Z
  | S754_finite false m e => (1, e, Z.pos m)%Z
  end.

Definition lexLt (r r' : Z * Z * Z) : Prop :=
  let '(a, b, c) := r in
  let '(a', b', c') := r' in
  (a < a' \/ (a = a' /\ (b < b' \/ (b = b' /\ c < c'))))%Z.

(** The keys of [Less] in the order it reads them, each made so that the
    smaller sorts first. *)
Definition rankKey (x : accept) : (Z * Z * Z) * Z * Z * Z :=
  (SFrank (Prim2SF (qualityFactor x)),
   if String.eqb (typ x) "*" then 1 else 0,
   if String.eqb (subtype x) "*" then 1 else 0,
   - Z.of_nat (size (extensions x)))%Z.

Definition rankLt (k k' : (Z * Z * Z) * Z * Z * Z) : Prop :=
  let '(q, t, s, n) := k in
  let '(q', t', s', n') := k' in
  lexLt q' q
  \/ (q = q' /\ (t < t' \/ (t = t' /\ (s < s' \/ (s = s' /\ n < n')))))%Z.

(** The family that [bestFit] looks for: the universal wildcard, or
    [application] with [json] or a wildcard. *)
Definition acceptsJSON (a : accept) : Prop :=
  (typ a = "*" /\ subtype a = "*")
  \/ (typ a = "application" /\ (subtype a = "json" \/ subtype a = "*")).

End Decode.

(** ** The [net/url], [net/http] and [strconv] pieces of [api_key.go] *)

Module Http.

(** A [url.URL] with a scheme, a host, a path and a query: the fields that
    the transport reads or writes, and those of a URL that has no user, no
    opaque part, no raw path and no fragment, and neither [OmitHost] nor
    [ForceQuery]. *)
Record URL : Type := mkURL {
  Scheme : string;
  Host : string;
  Path : string;
  RawQuery : string
}.

(** Whether [:] stands in the first segment of a path. *)
Fixpoint colonInFirstSegment (path : string) : bool :=
  match path with
  | EmptyString => false
  | String c path' =>
      if Ascii.eqb c "/" then false
      else if Ascii.eqb c ":" then true
      else colonInFirstSegment path'
  end.

(** The two ways of escaping that [URL.String] uses on such a URL. *)
Inductive encoding : Type := encodePath | encodeHost.

Definition oneOf (c : ascii) (s : string) : bool :=
  existsb (Ascii.eqb c) (list_ascii_of_string s).

(** [shouldEscape(c, mode)]: letters and digits are never escaped; a host
    keeps the sub-delimiters, the colon, the brackets, the angle brackets and
    the quotation mark (the character 34); the marks [-_.~] are never
    escaped; of the reserved characters a path escapes the question mark
    only; everything else is escaped. *)
Definition shouldEscape (c : ascii) (mode : encoding) : bool :=
  let n := nat_of_ascii c in
  if (Nat.leb 97 n && Nat.leb n 122) || (Nat.leb 65 n && Nat.leb n 90)
     || (Nat.leb 48 n && Nat.leb n 57)
  then false
  else if match mode with
          | encodeHost => oneOf c "!$&'()*+,;=:[]<>" || Nat.eqb n 34
          | encodePath => false
          end
  then false
  else if oneOf c "-_.~" then false
  else if oneOf c "$&+,/:;=?@" then
    match mode with
    | encodePath => Ascii.eqb c "?"
    | encodeHost => true
    end
  else true.

Definition upperhex (n : nat) : ascii :=
  match String.get n "0123456789ABCDEF" with
  | Some c => c
  | None => "0"%char
  end.

(** [escape(s, mode)]: a byte that is to be escaped becomes [%] and its two
    hexadecimal digits. *)
Fixpoint escape (s : string) (mode : encoding) : string :=
  match s with
  | EmptyString => EmptyString
  | String c s' =>
      if shouldEscape c mode
      then String "%" (String (upperhex (nat_of_ascii c / 16))
                              (String (upperhex (nat_of_ascii c mod 16))
                                      (escape s' mode)))
      else String c (escape s' mode)
  end.

(** [URL.EscapedPath] without a raw path. *)
Definition EscapedPath (u : URL) : string :=
  if String.eqb (Path u) "*" then "*" else escape (Path u) encodePath.

(** [URL.String] for such a URL. *)
Definition URLString (u : URL) : string :=
  let scheme := if String.eqb (Scheme u) "" then "" else Scheme u +:+ ":" in
  let authority :=
    if String.eqb (Scheme u) "" && String.eqb (Host u) "" then ""
    else (if String.eqb (Host u) "" && String.eqb (Path u) "" then "" else "//")
         +:+ escape (Host u) encodeHost in
  let path := EscapedPath u in
  let slash :=
    match path with
    | String c _ =>
        if negb (Ascii.eqb c "/") && negb (String.eqb (Host u) "") then "/" else ""
    | EmptyString => ""
    end in
  let dot :=
    if String.eqb (scheme +:+ authority +:+ slash) "" && colonInFirstSegment path
    then "./" else "" in
  let query := if String.eqb (RawQuery u) "" then "" else "?" +:+ RawQuery u in
  scheme +:+ authority +:+ slash +:+ dot +:+ path +:+ query.

(** The bytes of a token of RFC 7230 ([validHeaderFieldByte]). *)
Definition validHeaderFieldByte (c : ascii) : bool :=
  let n := nat_of_ascii c in
  (Nat.leb 48 n && Nat.leb n 57) || (Nat.leb 65 n && Nat.leb n 90)
  || (Nat.leb 97 n && Nat.leb n 122)
  || existsb (Ascii.eqb c) (list_ascii_of_string "!#$%&'*+-.^_`|~").

(** First letter and letters after a dash in upper case, the others in lower
    case. *)
Fixpoint canonical (upper : bool) (s : string) : string :=
  match s with
  | EmptyString => EmptyString
  | String c s' =>
      let n := nat_of_ascii c in
      let c' :=
        if upper && Nat.leb 97 n && Nat.leb n 122 then ascii_of_nat (n - 32)
        else if negb upper && Nat.leb 65 n && Nat.leb n 90 then ascii_of_nat (n + 32)
        else c in
      String c' (canonical (Ascii.eqb c' "-") s')
  end.

(** [textproto.CanonicalMIMEHeaderKey]: a key that is not a token is left
    as it is. *)
Definition CanonicalMIMEHeaderKey (s : string) : string :=
  if forallb validHeaderFieldByte (list_ascii_of_string s)
  then canonical true s else s.

(** [http.Header]. *)
Abbreviation Header := (gmap string (list string)).

(** [Header.Set] and [Header.Add]. *)
Definition HeaderSet (h : Header) (key value : string) : Header :=
  <[CanonicalMIMEHeaderKey key := [value]]> h.

Definition HeaderAdd (h : Header) (key value : string) : Header :=
  let k := CanonicalMIMEHeaderKey key in
  <[k := default [] (h !! k) ++ [value]]> h.

(** The fields of [http.Request] that the transport reads or writes; [Body]
    is [None] for a nil body and holds the bytes to read otherwise.  The
    header and the URL are not nil, as [http.Client] sees to. *)
Record Request : Type := mkRequest {
  Method : string;
  ReqURL : URL;
  ReqHeader : Header;
  Body : option string
}.

(** [strings.Replace(s, old, new, 1)]. *)
Fixpoint Replace1 (s old new : string) : string :=
  if String.prefix old s
  then new +:+ String.substring (String.length old) (String.length s) s
  else
    match s with
    | EmptyString => EmptyString
    | String c s' => String c (Replace1 s' old new)
    end.

(** [strings.Contains]. *)
Fixpoint Contains (s substr : string) : bool :=
  String.prefix substr s
  || match s with
     | EmptyString => false
     | String _ s' => Contains s' substr
     end.

(** [strconv.FormatInt(n, 10)]. *)
Definition FormatInt (n : Z) : string := NilZero.string_of_int (Z.to_int n).

End Http.

(** ** The [auth] package: [api_key.go] *)

Module Auth.

Import Http.

(** [APIKey]; a nil [url] is [None]. *)
Record APIKey : Type := mkAPIKey {
  key : string;
  passphrase : string;
  secret : string;
  url : option URL
}.

(** The errors of the transport; [ErrURLRequired] is declared elsewhere in
    the package. *)
Inductive error : Type :=
| ErrURLRequired
| errDecodingSecret
| errMakingRequest (e : string).

(** [NewAPIKey] and the setters. *)
Definition NewAPIKey : APIKey := mkAPIKey "" "" "" None.

Definition SetKey (auth : APIKey) (k : string) : APIKey :=
  mkAPIKey k (passphrase auth) (secret auth) (url auth).

Definition SetPassphrase (auth : APIKey) (p : string) : APIKey :=
  mkAPIKey (key auth) p (secret auth) (url auth).

Definition SetSecret (auth : APIKey) (s : string) : APIKey :=
  mkAPIKey (key auth) (passphrase auth) s (url auth).

(** [SetURL], over [url.Parse]: the URL, or [None] for the nil that comes
    with an error. *)
Definition SetURL (Parse : string -> option URL) (auth : APIKey) (u : string)
  : APIKey :=
  mkAPIKey (key auth) (passphrase auth) (secret auth) (Parse u).

(** [generateSig]. *)
Definition generateSig (auth : APIKey) (message : string) : string + error :=
  match Base64.DecodeString (secret auth) with
  | None => inr errDecodingSecret
  | Some k =>
      inl (Base64.EncodeToString
             (Base64.ofBytes (SHA256.hmac (Base64.bytes k) (Base64.bytes message))))
  end.

(** [parsebytes]: the bytes of the body, and the request with a body that
    gives the same bytes again. *)
Definition parsebytes (req : Request) : string * Request :=
  match Body req with
  | None => ("", req)
  | Some body =>
      (body, mkRequest (Method req) (ReqURL req) (ReqHeader req) (Some body))
  end.

Section Signing.

(** [URL.String] belongs to [net/url]: the transport takes it as it comes,
    and what is proved of the transport holds whatever text it gives for a
    URL.  [Http.URLString] is what it gives for a URL of the kind of
    [Http.URL]. *)
Variable URLString : URL -> string.

(** [generageMsg]; [None] stands for the panic on a nil [auth.url]. *)
Definition generageMsg (auth : APIKey) (req : Request) (timestamp : string)
  : option (string * Request) :=
  u ← url auth;
  let postAuthority := Replace1 (URLString (ReqURL req)) (URLString u) "" in
  let '(body, req) := parsebytes req in
  Some (timestamp +:+ Method req +:+ postAuthority +:+ body, req).

(** [RoundTrip] up to the call of [http.DefaultTransport.RoundTrip], at the
    time [now] in seconds: the error returned before the call, or the request
    that is handed to the transport. *)
Definition authorize (auth : APIKey) (now : Z) (req : Request)
  : option (Request + error) :=
  match url auth with
  | None => Some (inr ErrURLRequired)
  | Some u =>
      let timestamp := FormatInt now in
      '(msg, req) ← generageMsg auth req timestamp;
      match generateSig auth msg with
      | inr err => Some (inr err)
      | inl sig =>
          let reqURL := mkURL (Scheme u) (Host u) (Path (ReqURL req)) (RawQuery (ReqURL req)) in
          let h := HeaderSet (ReqHeader req) "content-type" "application/json" in
          let h := HeaderAdd h "cb-access-key" (key auth) in
          let h := HeaderAdd h "cb-access-passphrase" (passphrase auth) in
          let h := HeaderAdd h "cb-access-sign" sig in
          let h := HeaderAdd h "cb-access-timestamp" timestamp in
          Some (inl (mkRequest (Method req) reqURL h (Body req)))
      end
  end.

Section Transport.

(** [http.Response], and [http.DefaultTransport.RoundTrip]: the response or
    the text of the error. *)
Variable Response : Type.
Variable DefaultTransport : Request -> Response + string.

(** [APIKey.RoundTrip]. *)
Definition RoundTrip (auth : APIKey) (now : Z) (req : Request)
  : option (Response + error) :=
  r ← authorize auth now req;
  match r with
  | inr err => Some (inr err)
  | inl req =>
      match DefaultTransport req with
      | inr e => Some (inr (errMakingRequest e))
      | inl rsp => Some (inl rsp)
      end
  end.

End Transport.

End Signing.

(** A key and a request to run the transport on. *)
Definition exampleAPIKey : APIKey :=
  mkAPIKey "my-key" "my-pass" "c2VjcmV0"
           (Some (mkURL "https" "api.exchange.coinbase.com" "" "")).

Definition exampleRequest : Request :=
  mkRequest "POST" (mkURL "http" "localhost:8080" "/orders" "limit=1")
            (<["Content-Type" := ["text/plain"]]> (<["Accept" := ["*/*"]]> ∅))
            (Some "size=1").

(** What the transport is handed for them at the time 1700000000. *)
Definition exampleSigned : Request :=
  mkRequest "POST" (mkURL "https" "api.exchange.coinbase.com" "/orders" "limit=1")
            (<["Content-Type" := ["application/json"]]>
               (<["Cb-Access-Key" := ["my-key"]]>
                  (<["Cb-Access-Passphrase" := ["my-pass"]]>
                     (<["Cb-Access-Sign" :=
                          ["ICSav3A2F4FJPPmrZOYvniZXVAgU4t7Yh2WJpDg3a5Y="]]>
                        (<["Cb-Access-Timestamp" := ["1700000000"]]>
                           (<["Accept" := ["*/*"]]> ∅))))))
            (Some "size=1").

(** The header keys that [RoundTrip] writes. *)
Definition signedKeys : list string :=
  map CanonicalMIMEHeaderKey
      ["content-type"; "cb-access-key"; "cb-access-passphrase";
       "cb-access-sign"; "cb-access-timestamp"].

End Auth.

(** * Properties *)

Import Decode.

(** ** Sample evaluations *)

Example Split_empty : Split "" "," = [""].
Proof. reflexivity. Qed.

Example Split_three : Split "a/b/c" "/" = ["a"; "b"; "c"].
Proof. reflexivity. Qed.

Example SplitN_first_only : SplitN "a=b=c" "=" 2 = ["a"; "b=c"].
Proof. reflexivity. Qed.

Example SplitN_absent : SplitN "abc" "=" 2 = ["abc"].
Proof. reflexivity. Qed.

Example TrimSpace_both : TrimSpace "  a b	 " = "a b".
Proof. reflexivity. Qed.

Example ParseFloat_minus_one : Strconv.ParseFloat "-1" = Some (-1)%float.
Proof. reflexivity. Qed.

Example ParseFloat_one_and_half : Strconv.ParseFloat "1.5" = Some 1.5%float.
Proof. reflexivity. Qed.

Example ParseFloat_nan : Strconv.ParseFloat "NaN" = Some nan.
Proof. reflexivity. Qed.

Example ParseFloat_word : Strconv.ParseFloat "high" = None.
Proof. reflexivity. Qed.

Example sha256_abc :
  Base64.EncodeToString (Base64.ofBytes (SHA256.sum (Base64.bytes "abc")))
  = "ungWv48Bz+pBQUDeXa4iI7ADYaOWF3qctBD/YfIAFa0=".
Proof. by vm_compute. Qed.

Example hmac_sha256_fox :
  Base64.EncodeToString
    (Base64.ofBytes
       (SHA256.hmac (Base64.bytes "key")
                    (Base64.bytes "The quick brown fox jumps over the lazy dog")))
  = "97yD9DBThCSxMpjmqm+xQ+9NWaFJRhdZl0edvC0aPNg=".
Proof. by vm_compute. Qed.

Example DecodeString_padded : Base64.DecodeString "c2VjcmV0" = Some "secret".
Proof. by vm_compute. Qed.

Example DecodeString_short : Base64.DecodeString "c2VjcmV" = None.
Proof. by vm_compute. Qed.

Example URLString_full :
  Http.URLString (Http.mkURL "http" "localhost:8080" "/orders" "limit=1")
  = "http://localhost:8080/orders?limit=1".
Proof. by vm_compute. Qed.

Example URLString_escaped :
  Http.URLString (Http.mkURL "https" "example.com" "/a b/c?d" "x=1")
  = "https://example.com/a%20b/c%3Fd?x=1".
Proof. by vm_compute. Qed.

Example CanonicalMIMEHeaderKey_sign :
  Http.CanonicalMIMEHeaderKey "cb-access-sign" = "Cb-Access-Sign".
Proof. by vm_compute. Qed.

Example generageMsg_example :
  Auth.generageMsg Http.URLString Auth.exampleAPIKey Auth.exampleRequest
    "1700000000"
  = Some ("1700000000POSThttp://localhost:8080/orders?limit=1size=1",
          Auth.exampleRequest).
Proof. by vm_compute. Qed.

(** ** Splitting and joining *)

Section StringsFacts.

Lemma Split_cons (s : string) (sep : ascii) :
  exists p ps, Split s sep = p :: ps.
Proof.
  induction s as [|c s IH]; simpl; [eauto|].
  destruct (Ascii.eqb c sep); [eauto|].
  destruct IH as (p & ps & ->); eauto.
Qed.

Lemma Split_lookup_0 (s : string) (sep : ascii) :
  exists p, Split s sep !! 0 = Some p.
Proof. destruct (Split_cons s sep) as (p & ps & ->); simpl; eauto. Qed.

Lemma SplitN_2 (s : string) (sep : ascii) :
  SplitN s sep 2 = [s] \/ exists n v, SplitN s sep 2 = [n; v].
Proof.
  simpl. destruct (Cut s sep) as [[before after]|]; eauto.
Qed.

Lemma Split_free (s : string) (sep : ascii) : free sep s -> Split s sep = [s].
Proof.
  induction s as [|c s IH]; simpl; [done|].
  intros [-> Hs]. by rewrite IH.
Qed.

Lemma Split_append (s r : string) (sep : ascii) :
  free sep s -> Split (String.append s (String sep r)) sep = s :: Split r sep.
Proof.
  induction s as [|c s IH]; simpl.
  - intros _. by rewrite Ascii.eqb_refl.
  - intros [-> Hs]. by rewrite IH.
Qed.

Lemma Split_Join (ts : list string) (sep : ascii) :
  ts <> [] -> Forall (free sep) ts -> Split (Join ts sep) sep = ts.
Proof.
  induction ts as [|t ts IH]; [done|].
  intros _ Hall. inversion Hall as [|? ? Ht Hts]; subst.
  destruct ts as [|t' ts].
  - simpl. by apply Split_free.
  - change (Join (t :: t' :: ts) sep) with (String.append t (String sep (Join (t' :: ts) sep))).
    rewrite Split_append by done. f_equal. by apply IH.
Qed.

Lemma Split_pieces_free (s : string) (sep : ascii) :
  Forall (free sep) (Split s sep).
Proof.
  induction s as [|c s IH]; simpl; [by repeat constructor|].
  destruct (Ascii.eqb c sep) eqn:E; [by constructor|].
  destruct (Split s sep) as [|p ps]; [by repeat constructor|].
  inversion IH; subst. by repeat constructor.
Qed.

Lemma Join_cons (e e' : string) (es : list string) (sep : ascii) :
  Join (e :: e' :: es) sep = String.append e (String sep (Join (e' :: es) sep)).
Proof. reflexivity. Qed.

Lemma Join_Split (s : string) (sep : ascii) : Join (Split s sep) sep = s.
Proof.
  induction s as [|c s IH]; [done|]. simpl Split.
  destruct (Split_cons s sep) as (p & ps & E). rewrite E in *.
  destruct (Ascii.eqb c sep) eqn:Hc.
  - apply Ascii.eqb_eq in Hc as ->. rewrite Join_cons, IH. reflexivity.
  - destruct ps as [|p' ps].
    + simpl in *. by rewrite IH.
    + rewrite Join_cons in *. rewrite <- IH. reflexivity.
Qed.

End StringsFacts.

(** ** Comparisons of binary64 values *)

Section FloatFacts.

Lemma SFcompare_swap (x y : spec_float) :
  SFcompare y x = option_map CompOpp (SFcompare x y).
Proof.
  destruct x as [sx|sx| |sx mx ex], y as [sy|sy| |sy my ey]; simpl; try reflexivity;
    try (destruct sx; reflexivity); try (destruct sy; reflexivity);
    try (destruct sx, sy; reflexivity).
  destruct sx, sy; simpl; try reflexivity;
    rewrite (Z.compare_antisym ex ey);
    destruct (ex ?= ey)%Z; simpl; try reflexivity;
    change (Pos.compare_cont Eq my mx) with (my ?= mx)%positive;
    change (Pos.compare_cont Eq mx my) with (mx ?= my)%positive;
    rewrite (Pos.compare_antisym mx my); try reflexivity;
    by rewrite CompOpp_involutive.
Qed.

Lemma SFcompare_None (x y : spec_float) :
  SFcompare x y = None -> x = S754_nan \/ y = S754_nan.
Proof.
  destruct x as [sx|sx| |sx mx ex], y as [sy|sy| |sy my ey]; simpl; auto; discriminate.
Qed.

Lemma is_nan_Prim2SF (x : float) : Prim2SF x = S754_nan -> PrimFloat.is_nan x = true.
Proof.
  intros H. unfold PrimFloat.is_nan. rewrite FloatAxioms.eqb_spec, H. reflexivity.
Qed.

(** A comparison [x < y] that fails leaves [y <= x], or one side is NaN. *)
Lemma ltb_false (x y : float) :
  PrimFloat.ltb x y = false ->
  PrimFloat.is_nan x = true \/ PrimFloat.is_nan y = true \/ PrimFloat.leb y x = true.
Proof.
  rewrite FloatAxioms.ltb_spec, FloatAxioms.leb_spec. unfold SFltb, SFleb.
  rewrite (SFcompare_swap (Prim2SF x) (Prim2SF y)).
  destruct (SFcompare (Prim2SF x) (Prim2SF y)) as [[]|] eqn:E; simpl; auto; try discriminate.
  intros _. destruct (SFcompare_None _ _ E) as [H|H]; auto using is_nan_Prim2SF.
Qed.

End FloatFacts.

(** ** Insertion sort meets the contract of [sort.Sort] *)

Section InsertionSort.

Context {A : Type}.
Variable less : A -> A -> bool.

Lemma sink_Permutation (x : A) (sorted : list A) :
  Permutation (GoSort.sink less x sorted) (x :: sorted).
Proof.
  induction sorted as [|y sorted IH]; simpl; [done|].
  destruct (less x y); [|done].
  rewrite IH. apply perm_swap.
Qed.

Lemma sink_fold_Permutation (data sorted : list A) :
  Permutation (fold_left (fun s x => GoSort.sink less x s) data sorted)
              (rev data ++ sorted).
Proof.
  revert sorted. induction data as [|x data IH]; intros sorted; simpl; [done|].
  by rewrite IH, sink_Permutation, <- app_assoc.
Qed.

Lemma insertionSort_Permutation (data : list A) :
  Permutation (GoSort.insertionSort less data) data.
Proof.
  unfold GoSort.insertionSort.
  rewrite <- Permutation_rev, sink_fold_Permutation, app_nil_r.
  by rewrite <- Permutation_rev.
Qed.

Lemma descending_rev (sorted : list A) :
  GoSort.descending less sorted -> GoSort.ascending less (rev sorted).
Proof.
  unfold GoSort.descending, GoSort.ascending.
  induction 1 as [|y sorted Hs IH Hy]; simpl; [constructor|].
  apply StronglySorted_app. repeat split; auto.
  - intros x1 x2 H1 H2. apply list_elem_of_singleton in H2 as ->.
    rewrite List.Forall_forall in Hy. apply Hy.
    apply list_elem_of_In in H1. by apply in_rev.
  - repeat constructor.
Qed.

Lemma sink_descending (all : list A) (x : A) (sorted : list A) :
  GoSort.transitiveOrdering less all ->
  In x all -> (forall z, In z sorted -> In z all) ->
  GoSort.descending less sorted -> GoSort.descending less (GoSort.sink less x sorted).
Proof.
  unfold GoSort.descending. intros Hord Hxin.
  induction sorted as [|y sorted IH]; intros Hall Hs; simpl.
  - repeat constructor.
  - apply StronglySorted_cons in Hs as [Hy Hs].
    assert (Hyin : In y all) by (apply Hall; by left).
    destruct (less x y) eqn:Hxy.
    + apply StronglySorted_cons. split.
      * apply List.Forall_forall. intros w Hw.
        apply (Permutation_in _ (sink_Permutation x sorted)) in Hw.
        destruct Hw as [<-|Hw].
        -- destruct (less y x) eqn:Hyx; [|done].
           destruct (Hord x y x Hxin Hyin Hxin) as (Hirr & Htr & _).
           rewrite Htr in Hirr; done.
        -- rewrite List.Forall_forall in Hy. by apply Hy.
      * apply IH; [|done]. intros z Hz. apply Hall. by right.
    + apply StronglySorted_cons. split; [|by apply StronglySorted_cons].
      constructor; [done|].
      apply List.Forall_forall. intros w Hw.
      rewrite List.Forall_forall in Hy. specialize (Hy w Hw).
      destruct (Hord x y w Hxin Hyin) as (_ & _ & Hneg); [apply Hall; by right|].
      by apply Hneg.
Qed.

Lemma sink_fold_descending (all data sorted : list A) :
  GoSort.transitiveOrdering less all ->
  (forall z, In z data -> In z all) -> (forall z, In z sorted -> In z all) ->
  GoSort.descending less sorted ->
  GoSort.descending less (fold_left (fun s x => GoSort.sink less x s) data sorted).
Proof.
  intros Hord. revert sorted.
  induction data as [|x data IH]; intros sorted Hd Hs Hsorted; simpl; [done|].
  apply IH.
  - intros z Hz. apply Hd. by right.
  - intros z Hz. apply (Permutation_in _ (sink_Permutation x sorted)) in Hz.
    destruct Hz as [<-|Hz]; [apply Hd; by left|by apply Hs].
  - apply (sink_descending all); auto. apply Hd. by left.
Qed.

Lemma insertionSort_ascending (data : list A) :
  GoSort.transitiveOrdering less data ->
  GoSort.ascending less (GoSort.insertionSort less data).
Proof.
  intros Hord. unfold GoSort.insertionSort. apply descending_rev.
  apply (sink_fold_descending data); auto; [done|constructor].
Qed.

(** Insertion sort is one of the sorts that [sort.Sort] may be. *)
Lemma insertionSort_SortSpec : GoSort.SortSpec less (GoSort.insertionSort less).
Proof.
  split; [apply insertionSort_Permutation|apply insertionSort_ascending].
Qed.

End InsertionSort.

(** ** Insertion sort keeps the order of equal elements *)

Section Stability.

Context {A : Type}.
Variable less : A -> A -> bool.

(** A class of elements none of which must sort before another. *)
Variable same : A -> bool.
Hypothesis same_not_less :
  forall x y, same x = true -> same y = true -> less x y = false.

Lemma sink_filter (x : A) (sorted : list A) :
  List.filter same (GoSort.sink less x sorted) = List.filter same (x :: sorted).
Proof.
  induction sorted as [|y sorted IH]; [done|].
  simpl GoSort.sink. destruct (less x y) eqn:Hxy; [|done].
  simpl in *. rewrite IH.
  destruct (same x) eqn:Hx, (same y) eqn:Hy; try done.
  rewrite same_not_less in Hxy by done. discriminate.
Qed.

Lemma sink_fold_filter (data sorted : list A) :
  List.filter same (fold_left (fun s x => GoSort.sink less x s) data sorted)
  = List.filter same (rev data ++ sorted).
Proof.
  revert sorted. induction data as [|x data IH]; intros sorted; [done|].
  simpl fold_left. rewrite IH, !List.filter_app, sink_filter.
  simpl rev. rewrite List.filter_app, <- app_assoc. simpl.
  by destruct (same x).
Qed.

Lemma insertionSort_filter (data : list A) :
  List.filter same (GoSort.insertionSort less data) = List.filter same data.
Proof.
  unfold GoSort.insertionSort.
  rewrite List.filter_rev, sink_fold_filter, app_nil_r, List.filter_rev.
  by rewrite rev_involutive.
Qed.

(** On at most twelve elements [sort.Sort] is the insertion sort. *)
Lemma Sort_insertionSort
    (breakPatterns : list A -> nat -> nat -> list A) (data : list A) :
  length data <= 12 ->
  GoSort.Sort less breakPatterns data = GoSort.insertionSort less data.
Proof.
  intros Hlen. unfold GoSort.Sort.
  destruct (Nat.leb_spec (length data) 1) as [H1|H1].
  - destruct data as [|x [|y data]]; [done..|simpl in H1; lia].
  - simpl. rewrite Nat.sub_0_r.
    destruct (Nat.leb_spec (length data) 12) as [_|H]; [|lia].
    unfold GoSort.insertionSortRange.
    rewrite Nat.sub_0_r, firstn_all, skipn_all. simpl.
    by rewrite app_nil_r.
Qed.

End Stability.

(** ** Ranges and their entries *)

Section DecodeFacts.

Variable ParseFloat : string -> option float.
Variable Sort : AcceptSlice -> AcceptSlice.

Lemma orStar_nonempty (s : string) : orStar s <> "".
Proof.
  unfold orStar. destruct (String.eqb s "") eqn:E; [done|].
  by apply String.eqb_neq.
Qed.

(** [parseMediaRange] does not panic; it fails on more than two segments,
    and otherwise yields a type and a subtype that are trimmed and not
    empty. *)
Lemma parseMediaRange_cases (m : string) :
  (2 < typeSubtypeSegments m /\
   exists ts e, parseMediaRange m = Some (Split m ";", ts, Some e))
  \/ (typeSubtypeSegments m <= 2 /\
      exists t0 t1 rest,
        parseMediaRange m = Some (Split m ";", orStar t0 :: orStar t1 :: rest, None)).
Proof.
  unfold parseMediaRange, typeSubtypeSegments.
  destruct (Split_cons m ";") as (rp0 & rps & ->). simpl.
  destruct (Split_cons rp0 "/") as (a & l & ->).
  destruct l as [|b [|c l]]; simpl.
  - right. split; [lia|]. exists (TrimSpace a), (TrimSpace "*"), [].
    unfold orStar.
    destruct (String.eqb (TrimSpace a) ""); simpl;
      destruct (String.eqb (TrimSpace "*") ""); reflexivity.
  - right. split; [lia|]. exists (TrimSpace a), (TrimSpace b), ["*"].
    unfold orStar.
    destruct (String.eqb (TrimSpace a) ""); simpl;
      destruct (String.eqb (TrimSpace b) ""); reflexivity.
  - left. split; [lia|]. eauto.
Qed.

Lemma parseMediaRange_total (m : string) :
  exists rp ts e, parseMediaRange m = Some (rp, ts, e).
Proof.
  destruct (parseMediaRange_cases m) as [(_ & ts & e & ->)|(_ & t0 & t1 & r & ->)]; eauto.
Qed.

Lemma clamped_one : clamped 1.
Proof. left. split; reflexivity. Qed.

Lemma clamped_qval (qval : float) :
  PrimFloat.ltb qval 0 = false ->
  clamped (if PrimFloat.ltb 1 qval then 1%float else qval).
Proof.
  intros H0. destruct (PrimFloat.ltb 1 qval) eqn:H1; [apply clamped_one|].
  destruct (ltb_false _ _ H0) as [Hn|[Hn|H0']]; [by right|discriminate|].
  destruct (ltb_false _ _ H1) as [Hn|[Hn|H1']]; [discriminate|by right|].
  by left.
Qed.

(** The loop over the parameters does not panic and touches neither the
    type nor the subtype. *)
Lemma validateParams_total (params : list string) (acc : accept) :
  exists acc' valid,
    validateParams ParseFloat params acc = Some (acc', valid)
    /\ typ acc' = typ acc /\ subtype acc' = subtype acc
    /\ (clamped (qualityFactor acc) -> clamped (qualityFactor acc')).
Proof.
  revert acc. induction params as [|v params IH]; intros acc; simpl.
  - eauto 10.
  - destruct (SplitN_2 v "=") as [E|(n & x & E)].
    + simpl in E. rewrite E. simpl. eauto 10.
    + simpl in E. rewrite E. simpl.
      destruct (String.eqb (TrimSpace n) "q").
      * destruct (ParseFloat (TrimSpace x)) as [qval|]; [|eauto 10].
        destruct (PrimFloat.ltb qval 0) eqn:H0; [eauto 10|].
        destruct (IH (setQualityFactor acc
                        (if PrimFloat.ltb 1 qval then 1%float else qval)))
          as (acc' & valid & -> & Ht & Hs & Hq).
        exists acc', valid. repeat split; auto.
        intros _. apply Hq. simpl. by apply clamped_qval.
      * destruct (IH (setExtension acc (TrimSpace n) (TrimSpace x)))
          as (acc' & valid & -> & Ht & Hs & Hq).
        exists acc', valid. repeat split; auto.
Qed.

(** One turn of the loop of [parseAcceptHeader] appends the entries of its
    range, whatever was accepted before. *)
Lemma acceptRange_spec (accepted : AcceptSlice) (m : string) :
  acceptRange ParseFloat accepted m = Some (accepted ++ rangeEntries ParseFloat m).
Proof.
  unfold rangeEntries, acceptRange.
  destruct (parseMediaRange_cases m) as [(_ & ts & e & ->)|(_ & t0 & t1 & r & ->)]; simpl.
  - by rewrite app_nil_r.
  - destruct (Nat.eqb (length (Split m ";")) 1); [done|].
    destruct (Split_cons m ";") as (rp0 & rps & ->).
    destruct (validateParams_total rps (mkAccept (orStar t0) (orStar t1) 1 ∅))
      as (acc' & valid & -> & _). simpl.
    destruct valid; simpl; [done|by rewrite app_nil_r].
Qed.

Lemma acceptRanges_spec (ms : list string) (accepted : AcceptSlice) :
  acceptRanges ParseFloat ms accepted
  = Some (accepted ++ flat_map (rangeEntries ParseFloat) ms).
Proof.
  revert accepted. induction ms as [|m ms IH]; intros accepted; simpl.
  - by rewrite app_nil_r.
  - rewrite acceptRange_spec. simpl. rewrite IH. by rewrite <- app_assoc.
Qed.

(** [parseAcceptHeader] does not panic: it sorts the entries of the ranges
    of the header, taken in order. *)
Lemma parseAcceptHeader_spec (header : string) :
  parseAcceptHeader ParseFloat Sort header
  = Some (Sort (flat_map (rangeEntries ParseFloat) (Split header ","))).
Proof.
  unfold parseAcceptHeader. by rewrite acceptRanges_spec.
Qed.

(** A range with more than two segments adds no entry. *)
Lemma rangeEntries_malformed (m : string) :
  2 < typeSubtypeSegments m -> rangeEntries ParseFloat m = [].
Proof.
  intros H. unfold rangeEntries, acceptRange.
  destruct (parseMediaRange_cases m) as [(_ & ts & e & ->)|(Hle & _)]; [done|lia].
Qed.

(** The entries of a range have a type and a subtype that are not empty and
    a quality factor that the clamp has seen. *)
Lemma rangeEntries_invariant (m : string) (e : accept) :
  In e (rangeEntries ParseFloat m) ->
  typ e <> "" /\ subtype e <> "" /\ clamped (qualityFactor e).
Proof.
  unfold rangeEntries, acceptRange.
  destruct (parseMediaRange_cases m) as [(_ & ts & x & ->)|(_ & t0 & t1 & r & ->)]; simpl.
  - done.
  - destruct (Nat.eqb (length (Split m ";")) 1).
    + simpl. intros [<-|[]]. simpl. auto using orStar_nonempty, clamped_one.
    + destruct (Split_cons m ";") as (rp0 & rps & ->).
      destruct (validateParams_total rps (mkAccept (orStar t0) (orStar t1) 1 ∅))
        as (acc' & valid & -> & Ht & Hs & Hq). simpl in *.
      destruct valid; simpl; [|done].
      intros [<-|[]]. rewrite Ht, Hs. auto using orStar_nonempty, clamped_one.
Qed.

End DecodeFacts.

(** ** The walk over the ranked entries *)

Section Selection.

Lemma acceptsJSON_test (a : accept) :
  acceptsJSON a <->
  (String.eqb (typ a) "*" && String.eqb (subtype a) "*"
   || String.eqb (typ a) "application"
      && (String.eqb (subtype a) "json" || String.eqb (subtype a) "*")) = true.
Proof.
  unfold acceptsJSON.
  rewrite orb_true_iff, !andb_true_iff, orb_true_iff, !String.eqb_eq. tauto.
Qed.

(** The walk answers JSON exactly when some entry is the universal wildcard
    or [application] with [json] or a wildcard, byte for byte. *)
Lemma bestFit_JSON (accepted : AcceptSlice) :
  bestFit accepted = decodeTypeJSON <-> Exists acceptsJSON accepted.
Proof.
  induction accepted as [|a rest IH]; simpl.
  - split; [discriminate|inversion 1].
  - rewrite Exists_cons, acceptsJSON_test, <- IH.
    destruct (String.eqb (typ a) "*" && String.eqb (subtype a) "*"); simpl; [tauto|].
    destruct (String.eqb (typ a) "application"
              && (String.eqb (subtype a) "json" || String.eqb (subtype a) "*"));
      simpl; [tauto|].
    split; [auto|intros [?|?]; [discriminate|done]].
Qed.

Lemma bestFit_Unknown (accepted : AcceptSlice) :
  bestFit accepted = decodeTypeUnknown <-> Forall (fun a => ~ acceptsJSON a) accepted.
Proof.
  split.
  - intros Hu. apply List.Forall_forall. intros x Hx Hj.
    assert (bestFit accepted = decodeTypeJSON) as Hb; [|congruence].
    apply bestFit_JSON, List.Exists_exists. by exists x.
  - intros Hall. destruct (bestFit accepted) eqn:E; [done|].
    apply bestFit_JSON, List.Exists_exists in E as (x & Hx & Hj).
    rewrite List.Forall_forall in Hall. by destruct (Hall x Hx).
Qed.

(** The answer of the walk does not depend on the order of the entries. *)
Lemma bestFit_Permutation (a b : AcceptSlice) :
  Permutation a b -> bestFit a = bestFit b.
Proof.
  intros Hp.
  destruct (bestFit a) eqn:Ea, (bestFit b) eqn:Eb; try done.
  - apply bestFit_JSON in Eb. apply bestFit_Unknown in Ea.
    apply List.Exists_exists in Eb as (x & Hx & Hj).
    rewrite List.Forall_forall in Ea. destruct (Ea x); [|done].
    by apply (Permutation_in _ (Permutation_sym Hp)).
  - apply bestFit_JSON in Ea. apply bestFit_Unknown in Eb.
    apply List.Exists_exists in Ea as (x & Hx & Hj).
    rewrite List.Forall_forall in Eb. destruct (Eb x); [|done].
    by apply (Permutation_in _ Hp).
Qed.

Variable ParseFloat : string -> option float.
Variable Sort : AcceptSlice -> AcceptSlice.

(** [bestFitDecodeType] does not panic. *)
Lemma bestFitDecodeType_spec (header : string) :
  bestFitDecodeType ParseFloat Sort header
  = Some (match Sort (flat_map (rangeEntries ParseFloat) (Split header ",")) with
          | [] => decodeTypeJSON
          | accepted => bestFit accepted
          end).
Proof.
  unfold bestFitDecodeType. rewrite parseAcceptHeader_spec. simpl.
  by destruct (Sort _).
Qed.

Hypothesis Sort_spec : GoSort.SortSpec lessAccept Sort.

Lemma Sort_nil : Sort [] = [].
Proof.
  apply Permutation_nil, Permutation_sym, (GoSort.Sort_permutation _ _ Sort_spec).
Qed.

Lemma Sort_singleton (a : accept) : Sort [a] = [a].
Proof.
  apply Permutation_length_1_inv, Permutation_sym,
    (GoSort.Sort_permutation _ _ Sort_spec).
Qed.

(** Two entries of which the first must sort before the second stay as
    they are. *)
Lemma Sort_pair (a b : accept) :
  GoSort.transitiveOrdering lessAccept [a; b] ->
  lessAccept a b = true -> Sort [a; b] = [a; b].
Proof.
  intros Hord Hab.
  pose proof (GoSort.Sort_permutation _ _ Sort_spec [a; b]) as Hp.
  pose proof (GoSort.Sort_ascending _ _ Sort_spec [a; b] Hord) as Hs.
  apply Permutation_sym, Permutation_length_2_inv in Hp as [Hp|Hp]; [done|].
  rewrite Hp in Hs. unfold GoSort.ascending in Hs.
  apply StronglySorted_cons in Hs as [Hs _].
  apply Forall_cons in Hs as [Hs _]. congruence.
Qed.

(** The answer of [bestFitDecodeType] in terms of the entries of the
    ranges. *)
Lemma bestFitDecodeType_entries (header : string) :
  bestFitDecodeType ParseFloat Sort header
  = Some (match flat_map (rangeEntries ParseFloat) (Split header ",") with
          | [] => decodeTypeJSON
          | accepted => bestFit accepted
          end).
Proof.
  rewrite bestFitDecodeType_spec.
  pose proof (GoSort.Sort_permutation _ _ Sort_spec
                (flat_map (rangeEntries ParseFloat) (Split header ","))) as Hp.
  destruct (flat_map _ _) as [|e es] eqn:E.
  - by rewrite Sort_nil.
  - destruct (Sort (e :: es)) as [|e' es'] eqn:E'.
    + apply Permutation_nil in Hp. discriminate.
    + f_equal. by apply bestFit_Permutation.
Qed.

End Selection.

(** ** The ordering of [Less] *)

Lemma SFltb_rank (x y : spec_float) :
  x <> S754_nan -> y <> S754_nan ->
  (SFltb x y = true <-> lexLt (SFrank x) (SFrank y)).
Proof.
  intros Hx Hy. unfold SFltb.
  destruct x as [sx|sx| |sx mx ex], y as [sy|sy| |sy my ey]; try done; simpl;
    try (destruct sx); try (destruct sy); simpl;
    try (split; [discriminate|lia]); try (split; [lia|done]);
    change (Pos.compare_cont Eq mx my) with (mx ?= my)%positive;
    destruct (Z.compare_spec ex ey); simpl;
    try (split; [discriminate|lia]); try (split; [lia|done]);
    destruct (Pos.compare_spec mx my); simpl;
    try (split; [discriminate|lia]); try (split; [lia|done]).
Qed.

Lemma SFrank_eq (x y : spec_float) :
  x <> S754_nan -> y <> S754_nan ->
  SFltb x y = false -> SFltb y x = false -> SFrank x = SFrank y.
Proof.
  intros Hx Hy Hxy Hyx.
  assert (~ lexLt (SFrank x) (SFrank y)) as H1
    by (rewrite <- SFltb_rank by done; congruence).
  assert (~ lexLt (SFrank y) (SFrank x)) as H2
    by (rewrite <- SFltb_rank by done; congruence).
  destruct (SFrank x) as [[a b] c], (SFrank y) as [[a' b'] c'].
  unfold lexLt in *. f_equal; [f_equal|]; lia.
Qed.

Lemma Prim2SF_not_nan (q : float) :
  PrimFloat.is_nan q = false -> Prim2SF q <> S754_nan.
Proof.
  intros H E. apply is_nan_Prim2SF in E. congruence.
Qed.

(** On entries whose quality factor is not NaN, [Less] is the
    lexicographic order of the keys. *)
Lemma lessAccept_rankLt (x y : accept) :
  PrimFloat.is_nan (qualityFactor x) = false ->
  PrimFloat.is_nan (qualityFactor y) = false ->
  (lessAccept x y = true <-> rankLt (rankKey x) (rankKey y)).
Proof.
  intros Hx%Prim2SF_not_nan Hy%Prim2SF_not_nan.
  unfold lessAccept, rankKey, rankLt.
  rewrite !FloatAxioms.ltb_spec.
  destruct (SFltb (Prim2SF (qualityFactor y)) (Prim2SF (qualityFactor x))) eqn:E1.
  { apply SFltb_rank in E1; [|done..]. tauto. }
  destruct (SFltb (Prim2SF (qualityFactor x)) (Prim2SF (qualityFactor y))) eqn:E2.
  { apply SFltb_rank in E2; [|done..].
    assert (~ lexLt (SFrank (Prim2SF (qualityFactor y)))
                    (SFrank (Prim2SF (qualityFactor x)))) as H1
      by (rewrite <- SFltb_rank by done; congruence).
    split; [discriminate|]. intros [H|[H _]]; [done|].
    rewrite H in E2. destruct (SFrank _) as [[a b] c]. unfold lexLt in E2. lia. }
  pose proof (SFrank_eq _ _ Hx Hy E2 E1) as Eq.
  assert (~ lexLt (SFrank (Prim2SF (qualityFactor y)))
                  (SFrank (Prim2SF (qualityFactor x)))) as H1
    by (rewrite <- SFltb_rank by done; congruence).
  destruct (String.eqb (typ x) "*"), (String.eqb (typ y) "*"),
    (String.eqb (subtype x) "*"), (String.eqb (subtype y) "*"); simpl;
    try (split; [intros _; right; split; [done|lia]|done]);
    try (split; [discriminate|intros [HH|[_ HH]]; [done|lia]]);
    destruct (Nat.ltb_spec (size (extensions y)) (size (extensions x)));
    try (split; [intros _; right; split; [done|lia]|done]);
    try (split; [discriminate|intros [HH|[_ HH]]; [done|lia]]).
Qed.

Lemma rankLt_irrefl (k : (Z * Z * Z) * Z * Z * Z) : ~ rankLt k k.
Proof.
  destruct k as [[[[[a b] c] t] s] n]. unfold rankLt, lexLt. lia.
Qed.

Lemma rankLt_trans (k1 k2 k3 : (Z * Z * Z) * Z * Z * Z) :
  rankLt k1 k2 -> rankLt k2 k3 -> rankLt k1 k3.
Proof.
  destruct k1 as [[[[[a1 b1] c1] t1] s1] n1], k2 as [[[[[a2 b2] c2] t2] s2] n2],
    k3 as [[[[[a3 b3] c3] t3] s3] n3].
  unfold rankLt, lexLt.
  intros [H1|[E1 H1]] [H2|[E2 H2]].
  - left. lia.
  - injection E2 as -> -> ->. by left.
  - injection E1 as -> -> ->. by left.
  - right. split; [congruence|lia].
Qed.

Lemma rankLt_neg_trans (k1 k2 k3 : (Z * Z * Z) * Z * Z * Z) :
  ~ rankLt k1 k2 -> ~ rankLt k2 k3 -> ~ rankLt k1 k3.
Proof.
  destruct k1 as [[[[[a1 b1] c1] t1] s1] n1], k2 as [[[[[a2 b2] c2] t2] s2] n2],
    k3 as [[[[[a3 b3] c3] t3] s3] n3].
  unfold rankLt, lexLt.
  intros H1 H2 [H3|[E3 H3]].
  - assert (~ (a2 < a1 \/ a2 = a1 /\ (b2 < b1 \/ b2 = b1 /\ c2 < c1)))%Z by tauto.
    assert (~ (a3 < a2 \/ a3 = a2 /\ (b3 < b2 \/ b3 = b2 /\ c3 < c2)))%Z by tauto.
    lia.
  - injection E3 as -> -> ->.
    destruct (decide ((a2, b2, c2) = (a3, b3, c3))) as [E|NE].
    + injection E as -> -> ->.
      apply H1. right. split; [done|].
      assert (~ (t2 < t3 \/ t2 = t3 /\ (s2 < s3 \/ s2 = s3 /\ n2 < n3)))%Z
        by (intros ?; apply H2; right; done).
      lia.
    + assert (~ (a3 < a2 \/ a3 = a2 /\ (b3 < b2 \/ b3 = b2 /\ c3 < c2)))%Z
        by (intros ?; apply H2; by left).
      assert (~ (a2 < a3 \/ a2 = a3 /\ (b2 < b3 \/ b2 = b3 /\ c2 < c3)))%Z
        by (intros ?; apply H1; by left).
      apply NE. f_equal; [f_equal|]; lia.
Qed.

(** [Less] is a transitive ordering on entries whose quality factor is not
    NaN. *)
Lemma lessAccept_transitiveOrdering (a : AcceptSlice) :
  Forall (fun e => PrimFloat.is_nan (qualityFactor e) = false) a ->
  GoSort.transitiveOrdering lessAccept a.
Proof.
  rewrite List.Forall_forall. intros Hnan x y z Hx%Hnan Hy%Hnan Hz%Hnan.
  pose proof (lessAccept_rankLt x x Hx Hx) as Hxx.
  pose proof (lessAccept_rankLt x y Hx Hy) as Hxy.
  pose proof (lessAccept_rankLt y z Hy Hz) as Hyz.
  pose proof (lessAccept_rankLt x z Hx Hz) as Hxz.
  repeat split.
  - destruct (lessAccept x x); [|done].
    destruct (rankLt_irrefl (rankKey x)). by apply Hxx.
  - intros H1%Hxy H2%Hyz. apply Hxz. by apply (rankLt_trans _ (rankKey y)).
  - intros H1 H2. destruct (lessAccept x z) eqn:E; [|done].
    destruct (rankLt_neg_trans (rankKey x) (rankKey y) (rankKey z)).
    + rewrite <- Hxy. congruence.
    + rewrite <- Hyz. congruence.
    + by apply Hxz.
Qed.

(** ** Negotiation *)

(** A value above 1 is not below 0. *)
Lemma ltb_one_not_negative (q : float) :
  PrimFloat.ltb 1 q = true -> PrimFloat.ltb q 0 = false.
Proof.
  rewrite !FloatAxioms.ltb_spec.
  change (Prim2SF 1) with (S754_finite false 4503599627370496 (-52)).
  change (Prim2SF 0) with (S754_zero false).
  destruct (Prim2SF q) as [s|s| |s m e]; simpl; try done.
  - by destruct s.
  - by destruct s.
Qed.

(** Every entry that [parseAcceptHeader] returns has a type and a subtype
    that are not empty, and a quality factor that is between 0 and 1 or is
    NaN. *)
Theorem parseAcceptHeader_invariant
    (ParseFloat : string -> option float) (Sort : AcceptSlice -> AcceptSlice)
    (header : string) (accepted : AcceptSlice) (e : accept) :
  GoSort.SortSpec lessAccept Sort ->
  parseAcceptHeader ParseFloat Sort header = Some accepted ->
  In e accepted ->
  typ e <> "" /\ subtype e <> ""
  /\ (unitInterval (qualityFactor e) \/ PrimFloat.is_nan (qualityFactor e) = true).
Proof.
  intros HSort. rewrite parseAcceptHeader_spec. intros [= <-] He.
  apply (Permutation_in _ (GoSort.Sort_permutation _ _ HSort _)) in He.
  apply in_flat_map in He as (m & _ & He).
  by apply (rangeEntries_invariant ParseFloat m).
Qed.

Lemma parseAcceptHeader_invariant_witness :
  parseAcceptHeader Strconv.ParseFloat (GoSort.insertionSort lessAccept)
    " text/html ; q=0.5 " = Some [mkAccept "text" "html" 0.5 ∅]
  /\ typ (mkAccept "text" "html" 0.5 ∅) <> ""
  /\ subtype (mkAccept "text" "html" 0.5 ∅) <> ""
  /\ (unitInterval (qualityFactor (mkAccept "text" "html" 0.5 ∅))
      \/ PrimFloat.is_nan (qualityFactor (mkAccept "text" "html" 0.5 ∅)) = true).
Proof.
  split; [by vm_compute|].
  apply (parseAcceptHeader_invariant
           Strconv.ParseFloat (GoSort.insertionSort lessAccept)
           " text/html ; q=0.5 " [mkAccept "text" "html" 0.5 ∅]
           (mkAccept "text" "html" 0.5 ∅) (insertionSort_SortSpec lessAccept)).
  - by vm_compute.
  - by left.
Defined.

(** The answer does not depend on the ranking: it is [decodeTypeJSON] when
    no range gave an entry or when some entry is the universal wildcard or
    [application] with [json] or a wildcard, and [decodeTypeUnknown]
    otherwise. *)
Theorem bestFitDecodeType_ignores_ranking
    (ParseFloat : string -> option float) (Sort : AcceptSlice -> AcceptSlice)
    (header : string) :
  GoSort.SortSpec lessAccept Sort ->
  (flat_map (rangeEntries ParseFloat) (Split header ",") = []
   \/ Exists acceptsJSON (flat_map (rangeEntries ParseFloat) (Split header ",")) ->
   bestFitDecodeType ParseFloat Sort header = Some decodeTypeJSON)
  /\ (flat_map (rangeEntries ParseFloat) (Split header ",") <> [] ->
      Forall (fun a => ~ acceptsJSON a)
             (flat_map (rangeEntries ParseFloat) (Split header ",")) ->
      bestFitDecodeType ParseFloat Sort header = Some decodeTypeUnknown).
Proof.
  intros HSort. rewrite (bestFitDecodeType_entries _ _ HSort).
  destruct (flat_map _ _) as [|e es]; split.
  - done.
  - done.
  - intros [|H]; [done|]. f_equal. by apply bestFit_JSON.
  - intros _ H. f_equal. by apply bestFit_Unknown.
Qed.

Lemma bestFitDecodeType_ignores_ranking_witness :
  bestFitDecodeType Strconv.ParseFloat (GoSort.insertionSort lessAccept)
    "text/html, application/*;q=0.1" = Some decodeTypeJSON.
Proof.
  apply (bestFitDecodeType_ignores_ranking
           Strconv.ParseFloat (GoSort.insertionSort lessAccept)
           "text/html, application/*;q=0.1" (insertionSort_SortSpec lessAccept)).
  right.
  assert (flat_map (rangeEntries Strconv.ParseFloat)
            (Split "text/html, application/*;q=0.1" ",")
          = [mkAccept "text" "html" 1 ∅; mkAccept "application" "*" 0.1 ∅])
    as -> by (by vm_compute).
  apply Exists_cons_tl, Exists_cons_hd. right. split; [done|by right].
Defined.

(** C9: for every header, [parseAcceptHeader] returns a list and
    [bestFitDecodeType] returns [decodeTypeJSON] or [decodeTypeUnknown];
    neither panics, whatever [strconv.ParseFloat] and [sort.Sort] give: the
    ranges that do not parse add no entry. *)
Theorem bestFitDecodeType_total
    (ParseFloat : string -> option float) (Sort : AcceptSlice -> AcceptSlice)
    (header : string) :
  (exists accepted, parseAcceptHeader ParseFloat Sort header = Some accepted)
  /\ (bestFitDecodeType ParseFloat Sort header = Some decodeTypeJSON
      \/ bestFitDecodeType ParseFloat Sort header = Some decodeTypeUnknown).
Proof.
  split; [rewrite parseAcceptHeader_spec; eauto|].
  rewrite bestFitDecodeType_spec.
  destruct (Sort _) as [|e es]; [by left|].
  destruct (bestFit (e :: es)); auto.
Qed.

(** C5: the empty header is answered with [decodeTypeJSON], and so is every
    header whose ranked list is empty. *)
Theorem empty_header_defaults_to_JSON
    (ParseFloat : string -> option float) (Sort : AcceptSlice -> AcceptSlice) :
  GoSort.SortSpec lessAccept Sort ->
  bestFitDecodeType ParseFloat Sort "" = Some decodeTypeJSON
  /\ (forall header,
        parseAcceptHeader ParseFloat Sort header = Some [] ->
        bestFitDecodeType ParseFloat Sort header = Some decodeTypeJSON).
Proof.
  intros HSort. split.
  - by rewrite (bestFitDecodeType_entries _ _ HSort).
  - intros header H. unfold bestFitDecodeType. by rewrite H.
Qed.

Lemma empty_header_defaults_to_JSON_witness :
  GoSort.SortSpec lessAccept (GoSort.insertionSort lessAccept)
  /\ bestFitDecodeType Strconv.ParseFloat (GoSort.insertionSort lessAccept) ""
     = Some decodeTypeJSON
  /\ (forall header,
        parseAcceptHeader Strconv.ParseFloat (GoSort.insertionSort lessAccept)
          header = Some [] ->
        bestFitDecodeType Strconv.ParseFloat (GoSort.insertionSort lessAccept)
          header = Some decodeTypeJSON).
Proof.
  split; [apply insertionSort_SortSpec|].
  apply (empty_header_defaults_to_JSON
           Strconv.ParseFloat (GoSort.insertionSort lessAccept)
           (insertionSort_SortSpec lessAccept)).
Defined.

(** The empty header is not a header without entries: its one range is read
    as the universal wildcard. *)
Lemma empty_header_entries
    (ParseFloat : string -> option float) (Sort : AcceptSlice -> AcceptSlice) :
  GoSort.SortSpec lessAccept Sort ->
  parseAcceptHeader ParseFloat Sort "" = Some [mkAccept "*" "*" 1 ∅].
Proof.
  intros HSort. rewrite parseAcceptHeader_spec.
  change (flat_map _ _) with [mkAccept "*" "*" 1 ∅].
  by rewrite (Sort_singleton _ HSort).
Qed.

(** C2 holds in part: in the header [application/json;q=-1] the one entry
    is dropped, but [bestFitDecodeType] then answers [decodeTypeJSON], not
    [decodeTypeUnknown], because the list is empty. *)
Theorem negative_q_only_entry_defaults_to_JSON
    (ParseFloat : string -> option float) (Sort : AcceptSlice -> AcceptSlice) :
  GoSort.SortSpec lessAccept Sort ->
  ParseFloat "-1" = Some (-1)%float ->
  parseAcceptHeader ParseFloat Sort "application/json;q=-1" = Some []
  /\ bestFitDecodeType ParseFloat Sort "application/json;q=-1"
     = Some decodeTypeJSON.
Proof.
  intros HSort Hq.
  assert (flat_map (rangeEntries ParseFloat) (Split "application/json;q=-1" ",") = [])
    as E by (vm_compute; by rewrite Hq).
  split.
  - by rewrite parseAcceptHeader_spec, E, (Sort_nil _ HSort).
  - by rewrite (bestFitDecodeType_entries _ _ HSort), E.
Qed.

Lemma negative_q_only_entry_defaults_to_JSON_witness :
  Strconv.ParseFloat "-1" = Some (-1)%float
  /\ parseAcceptHeader Strconv.ParseFloat (GoSort.insertionSort lessAccept)
       "application/json;q=-1" = Some []
  /\ bestFitDecodeType Strconv.ParseFloat (GoSort.insertionSort lessAccept)
       "application/json;q=-1" = Some decodeTypeJSON.
Proof.
  split; [reflexivity|].
  apply (negative_q_only_entry_defaults_to_JSON
           Strconv.ParseFloat (GoSort.insertionSort lessAccept)
           (insertionSort_SortSpec lessAccept)).
  reflexivity.
Defined.

(** C8: a quality factor above 1 becomes 1 and the parameters stay valid;
    the header [application/json;q=1.5] yields the entry with quality factor
    1 and is answered with [decodeTypeJSON]. *)
Theorem quality_factor_above_one_is_clamped
    (ParseFloat : string -> option float) (Sort : AcceptSlice -> AcceptSlice) :
  GoSort.SortSpec lessAccept Sort ->
  ParseFloat "1.5" = Some 1.5%float ->
  (forall (acc : accept) (v : string) (q : float),
      ParseFloat (TrimSpace v) = Some q -> PrimFloat.ltb 1 q = true ->
      validateParams ParseFloat [String "q" (String "=" v)] acc
      = Some (setQualityFactor acc 1, true))
  /\ parseAcceptHeader ParseFloat Sort "application/json;q=1.5"
     = Some [mkAccept "application" "json" 1 ∅]
  /\ bestFitDecodeType ParseFloat Sort "application/json;q=1.5"
     = Some decodeTypeJSON.
Proof.
  intros HSort Hq.
  assert (flat_map (rangeEntries ParseFloat) (Split "application/json;q=1.5" ",")
          = [mkAccept "application" "json" 1 ∅])
    as E by (vm_compute; by rewrite Hq).
  split; [|split].
  - intros acc v q Hv H1. simpl. rewrite Hv, H1.
    by rewrite (ltb_one_not_negative q H1).
  - by rewrite parseAcceptHeader_spec, E, (Sort_singleton _ HSort).
  - by rewrite (bestFitDecodeType_entries _ _ HSort), E.
Qed.

Lemma quality_factor_above_one_is_clamped_witness :
  Strconv.ParseFloat "1.5" = Some 1.5%float
  /\ parseAcceptHeader Strconv.ParseFloat (GoSort.insertionSort lessAccept)
       "application/json;q=1.5" = Some [mkAccept "application" "json" 1 ∅]
  /\ bestFitDecodeType Strconv.ParseFloat (GoSort.insertionSort lessAccept)
       "application/json;q=1.5" = Some decodeTypeJSON.
Proof.
  split; [reflexivity|].
  apply (quality_factor_above_one_is_clamped
           Strconv.ParseFloat (GoSort.insertionSort lessAccept)
           (insertionSort_SortSpec lessAccept)).
  reflexivity.
Defined.

(** C10: the walk compares types and subtypes byte for byte, so that
    [Application/json] is answered with [decodeTypeUnknown]. *)
Theorem selector_matching_is_case_sensitive
    (ParseFloat : string -> option float) (Sort : AcceptSlice -> AcceptSlice) :
  GoSort.SortSpec lessAccept Sort ->
  (forall accepted,
      bestFit accepted = decodeTypeJSON <-> Exists acceptsJSON accepted)
  /\ parseAcceptHeader ParseFloat Sort "Application/json"
     = Some [mkAccept "Application" "json" 1 ∅]
  /\ bestFitDecodeType ParseFloat Sort "Application/json"
     = Some decodeTypeUnknown.
Proof.
  intros HSort. split; [apply bestFit_JSON|]. split.
  - rewrite parseAcceptHeader_spec.
    change (flat_map _ _) with [mkAccept "Application" "json" 1 ∅].
    by rewrite (Sort_singleton _ HSort).
  - by rewrite (bestFitDecodeType_entries _ _ HSort).
Qed.

Lemma selector_matching_is_case_sensitive_witness :
  parseAcceptHeader Strconv.ParseFloat (GoSort.insertionSort lessAccept)
    "Application/json" = Some [mkAccept "Application" "json" 1 ∅]
  /\ bestFitDecodeType Strconv.ParseFloat (GoSort.insertionSort lessAccept)
       "Application/json" = Some decodeTypeUnknown.
Proof.
  apply (selector_matching_is_case_sensitive
           Strconv.ParseFloat (GoSort.insertionSort lessAccept)
           (insertionSort_SortSpec lessAccept)).
Defined.

(** C4: [bestFitDecodeType] walks the ranked list of [parseAcceptHeader] and
    answers at the first entry that is a match, whatever stands before it;
    it answers [decodeTypeUnknown] when the list has entries and none is a
    match.  In the header [application/xml;q=0.9, application/json;q=0.8] the
    xml entry ranks first and is no match, the walk goes on to the json entry
    and the answer is [decodeTypeJSON]; the xml range alone is answered with
    [decodeTypeUnknown]. *)
Theorem first_acceptable_match_falls_through
    (ParseFloat : string -> option float) (Sort : AcceptSlice -> AcceptSlice) :
  GoSort.SortSpec lessAccept Sort ->
  ParseFloat "0.9" = Some 0.9%float ->
  ParseFloat "0.8" = Some 0.8%float ->
  (forall (header : string) (accepted before after : AcceptSlice) (e : accept),
     parseAcceptHeader ParseFloat Sort header = Some accepted ->
     accepted = before ++ e :: after ->
     Forall (fun a => ~ acceptsJSON a) before ->
     acceptsJSON e ->
     bestFitDecodeType ParseFloat Sort header = Some decodeTypeJSON)
  /\ (forall (header : string) (accepted : AcceptSlice),
        parseAcceptHeader ParseFloat Sort header = Some accepted ->
        accepted <> [] ->
        Forall (fun a => ~ acceptsJSON a) accepted ->
        bestFitDecodeType ParseFloat Sort header = Some decodeTypeUnknown)
  /\ parseAcceptHeader ParseFloat Sort
       "application/xml;q=0.9, application/json;q=0.8"
     = Some [mkAccept "application" "xml" 0.9 ∅;
             mkAccept "application" "json" 0.8 ∅]
  /\ ~ acceptsJSON (mkAccept "application" "xml" 0.9 ∅)
  /\ acceptsJSON (mkAccept "application" "json" 0.8 ∅)
  /\ bestFit [mkAccept "application" "xml" 0.9 ∅] = decodeTypeUnknown
  /\ bestFitDecodeType ParseFloat Sort
       "application/xml;q=0.9, application/json;q=0.8"
     = Some decodeTypeJSON
  /\ bestFitDecodeType ParseFloat Sort "application/xml;q=0.9"
     = Some decodeTypeUnknown.
Proof.
  intros HSort H9 H8.
  assert (forall header accepted,
            parseAcceptHeader ParseFloat Sort header = Some accepted ->
            accepted <> [] ->
            bestFitDecodeType ParseFloat Sort header = Some (bestFit accepted))
    as Hwalk.
  { intros header accepted Hacc Hne. unfold bestFitDecodeType.
    rewrite Hacc. simpl. by destruct accepted. }
  assert (flat_map (rangeEntries ParseFloat)
            (Split "application/xml;q=0.9, application/json;q=0.8" ",")
          = [mkAccept "application" "xml" 0.9 ∅;
             mkAccept "application" "json" 0.8 ∅])
    as E by (vm_compute; by rewrite H9, H8).
  assert (flat_map (rangeEntries ParseFloat) (Split "application/xml;q=0.9" ",")
          = [mkAccept "application" "xml" 0.9 ∅])
    as E1 by (vm_compute; by rewrite H9).
  assert (~ acceptsJSON (mkAccept "application" "xml" 0.9 ∅)) as Hxml.
  { rewrite acceptsJSON_test. by vm_compute. }
  repeat split.
  - intros header accepted before after e Hacc -> Hbefore He.
    rewrite (Hwalk _ _ Hacc) by (by destruct before). f_equal.
    apply bestFit_JSON, Exists_app. right. by left.
  - intros header accepted Hacc Hne Hall.
    rewrite (Hwalk _ _ Hacc Hne). f_equal. by apply bestFit_Unknown.
  - rewrite parseAcceptHeader_spec, E. f_equal.
    apply (Sort_pair _ HSort); [|reflexivity].
    intros x y z Hx Hy Hz. simpl in Hx, Hy, Hz.
    destruct Hx as [<-|[<-|[]]], Hy as [<-|[<-|[]]], Hz as [<-|[<-|[]]];
      vm_compute; repeat split; congruence.
  - exact Hxml.
  - right. simpl. auto.
  - by rewrite (bestFitDecodeType_entries _ _ HSort), E.
  - rewrite (bestFitDecodeType_entries _ _ HSort), E1. reflexivity.
Qed.

Lemma first_acceptable_match_falls_through_witness :
  Strconv.ParseFloat "0.9" = Some 0.9%float
  /\ Strconv.ParseFloat "0.8" = Some 0.8%float
  /\ (forall (header : string) (accepted before after : AcceptSlice) (e : accept),
        parseAcceptHeader Strconv.ParseFloat (GoSort.insertionSort lessAccept)
          header = Some accepted ->
        accepted = before ++ e :: after ->
        Forall (fun a => ~ acceptsJSON a) before ->
        acceptsJSON e ->
        bestFitDecodeType Strconv.ParseFloat (GoSort.insertionSort lessAccept)
          header = Some decodeTypeJSON)
  /\ (forall (header : string) (accepted : AcceptSlice),
        parseAcceptHeader Strconv.ParseFloat (GoSort.insertionSort lessAccept)
          header = Some accepted ->
        accepted <> [] ->
        Forall (fun a => ~ acceptsJSON a) accepted ->
        bestFitDecodeType Strconv.ParseFloat (GoSort.insertionSort lessAccept)
          header = Some decodeTypeUnknown)
  /\ parseAcceptHeader Strconv.ParseFloat (GoSort.insertionSort lessAccept)
       "application/xml;q=0.9, application/json;q=0.8"
     = Some [mkAccept "application" "xml" 0.9 ∅;
             mkAccept "application" "json" 0.8 ∅]
  /\ ~ acceptsJSON (mkAccept "application" "xml" 0.9 ∅)
  /\ acceptsJSON (mkAccept "application" "json" 0.8 ∅)
  /\ bestFit [mkAccept "application" "xml" 0.9 ∅] = decodeTypeUnknown
  /\ bestFitDecodeType Strconv.ParseFloat (GoSort.insertionSort lessAccept)
       "application/xml;q=0.9, application/json;q=0.8"
     = Some decodeTypeJSON
  /\ bestFitDecodeType Strconv.ParseFloat (GoSort.insertionSort lessAccept)
       "application/xml;q=0.9"
     = Some decodeTypeUnknown.
Proof.
  split; [reflexivity|]. split; [reflexivity|].
  apply (first_acceptable_match_falls_through
           Strconv.ParseFloat (GoSort.insertionSort lessAccept)
           (insertionSort_SortSpec lessAccept)); reflexivity.
Defined.

(** C6 does not hold at the header [a/b;q=NaN]: NaN is neither below 0 nor
    above 1, so the entry is kept with a quality factor that is not between
    0 and 1. *)
Theorem nan_quality_factor_is_kept
    (ParseFloat : string -> option float) (Sort : AcceptSlice -> AcceptSlice) :
  GoSort.SortSpec lessAccept Sort ->
  ParseFloat "NaN" = Some nan ->
  parseAcceptHeader ParseFloat Sort "a/b;q=NaN" = Some [mkAccept "a" "b" nan ∅]
  /\ ~ unitInterval (qualityFactor (mkAccept "a" "b" nan ∅)).
Proof.
  intros HSort Hq. split.
  - rewrite parseAcceptHeader_spec.
    assert (flat_map (rangeEntries ParseFloat) (Split "a/b;q=NaN" ",")
            = [mkAccept "a" "b" nan ∅]) as -> by (vm_compute; by rewrite Hq).
    by rewrite (Sort_singleton _ HSort).
  - intros [H _]. vm_compute in H. discriminate.
Qed.

Lemma nan_quality_factor_is_kept_witness :
  Strconv.ParseFloat "NaN" = Some nan
  /\ parseAcceptHeader Strconv.ParseFloat (GoSort.insertionSort lessAccept)
       "a/b;q=NaN" = Some [mkAccept "a" "b" nan ∅]
  /\ ~ unitInterval (qualityFactor (mkAccept "a" "b" nan ∅)).
Proof.
  split; [reflexivity|].
  apply (nan_quality_factor_is_kept
           Strconv.ParseFloat (GoSort.insertionSort lessAccept)
           (insertionSort_SortSpec lessAccept)).
  reflexivity.
Defined.

(** C7: in every header, a range whose type/subtype pair has more than two
    segments adds no entry, and the header is parsed to what its other ranges
    give: to the parse of the header without that range, when another range
    is left. *)
Theorem malformed_range_is_isolated
    (ParseFloat : string -> option float) (Sort : AcceptSlice -> AcceptSlice)
    (header : string) (i : nat) (bad : string) :
  Split header "," !! i = Some bad ->
  2 < typeSubtypeSegments bad ->
  rangeEntries ParseFloat bad = []
  /\ parseAcceptHeader ParseFloat Sort header
     = Some (Sort (flat_map (rangeEntries ParseFloat)
                            (delete i (Split header ","))))
  /\ (delete i (Split header ",") <> [] ->
      parseAcceptHeader ParseFloat Sort header
      = parseAcceptHeader ParseFloat Sort
          (Join (delete i (Split header ",")) ",")).
Proof.
  intros Hi Hbad.
  pose proof (rangeEntries_malformed ParseFloat bad Hbad) as Hnone.
  assert (flat_map (rangeEntries ParseFloat) (Split header ",")
          = flat_map (rangeEntries ParseFloat) (delete i (Split header ",")))
    as E.
  { rewrite <- (take_drop_middle _ _ _ Hi) at 1.
    rewrite delete_take_drop, !flat_map_app. simpl. by rewrite Hnone. }
  split; [done|]. split.
  - by rewrite parseAcceptHeader_spec, E.
  - intros Hne. rewrite !parseAcceptHeader_spec, E, Split_Join; [done..|].
    rewrite delete_take_drop. apply Forall_app.
    pose proof (Split_pieces_free header ",") as Hall.
    split; [by apply Forall_take|by apply Forall_drop].
Qed.

Lemma malformed_range_is_isolated_witness :
  Split "text/html;q=0.5,a/b/c,application/json" "," !! 1 = Some "a/b/c"
  /\ parseAcceptHeader Strconv.ParseFloat (GoSort.insertionSort lessAccept)
       "text/html;q=0.5,a/b/c,application/json"
     = parseAcceptHeader Strconv.ParseFloat (GoSort.insertionSort lessAccept)
         (Join (delete 1 (Split "text/html;q=0.5,a/b/c,application/json" ","))
               ",").
Proof.
  split; [reflexivity|].
  apply (malformed_range_is_isolated
           Strconv.ParseFloat (GoSort.insertionSort lessAccept)
           "text/html;q=0.5,a/b/c,application/json" 1 "a/b/c").
  - reflexivity.
  - vm_compute. lia.
  - by vm_compute.
Defined.

(** C1 does not hold at a header of thirteen ranges: the twelve entries
    [a/*] to [l/*] are equal on all the keys of [Less], and [sort.Sort] does
    not return them in the order of the header ([g/*] comes before [a/*]). *)
Theorem sort_reorders_tied_entries
    (ParseFloat : string -> option float)
    (breakPatterns : AcceptSlice -> nat -> nat -> AcceptSlice) :
  parseAcceptHeader ParseFloat (GoSort.Sort lessAccept breakPatterns)
    "a/*,b/*,c/*,d/*,e/*,f/*,g/*,h/*,i/*,j/*,k/*,l/*,m/x"
  = Some [mkAccept "m" "x" 1 ∅; mkAccept "g" "*" 1 ∅; mkAccept "c" "*" 1 ∅;
          mkAccept "d" "*" 1 ∅; mkAccept "e" "*" 1 ∅; mkAccept "f" "*" 1 ∅;
          mkAccept "a" "*" 1 ∅; mkAccept "h" "*" 1 ∅; mkAccept "i" "*" 1 ∅;
          mkAccept "j" "*" 1 ∅; mkAccept "k" "*" 1 ∅; mkAccept "l" "*" 1 ∅;
          mkAccept "b" "*" 1 ∅]
  /\ lessAccept (mkAccept "a" "*" 1 ∅) (mkAccept "g" "*" 1 ∅) = false
  /\ lessAccept (mkAccept "g" "*" 1 ∅) (mkAccept "a" "*" 1 ∅) = false.
Proof. by vm_compute. Qed.

(** ** The ranking *)

(** [AcceptSlice.Less] and [AcceptSlice.Swap] within the slice are the
    comparison and the exchange that the sort works with. *)
Lemma Less_lessAt (a : AcceptSlice) (i j : nat) :
  i < length a -> j < length a ->
  Less a i j = Some (GoSort.lessAt lessAccept a i j).
Proof.
  intros Hi%lookup_lt_is_Some_2 Hj%lookup_lt_is_Some_2.
  destruct Hi as [x Hx], Hj as [y Hy].
  unfold Less, GoSort.lessAt. by rewrite Hx, Hy.
Qed.

Lemma Swap_swap (a : AcceptSlice) (i j : nat) :
  i < length a -> j < length a -> Swap a i j = Some (GoSort.swap a i j).
Proof.
  intros Hi%lookup_lt_is_Some_2 Hj%lookup_lt_is_Some_2.
  destruct Hi as [x Hx], Hj as [y Hy].
  unfold Swap, GoSort.swap. by rewrite Hx, Hy.
Qed.

Lemma ltb_irrefl (q : float) : PrimFloat.ltb q q = false.
Proof.
  rewrite FloatAxioms.ltb_spec. unfold SFltb.
  destruct (Prim2SF q) as [s|s| |s m e]; simpl; try done.
  - by destruct s.
  - destruct s; rewrite Z.compare_refl;
      change (Pos.compare_cont Eq m m) with (m ?= m)%positive;
      by rewrite Pos.compare_refl.
Qed.

(** Quality factors that are equal to a third are not below one another. *)
Lemma eqb_not_ltb (e x y : float) :
  PrimFloat.eqb e x = true -> PrimFloat.eqb e y = true ->
  PrimFloat.ltb x y = false.
Proof.
  rewrite !FloatAxioms.eqb_spec, FloatAxioms.ltb_spec. unfold SFeqb, SFltb.
  intros Hx Hy.
  assert (Prim2SF e <> S754_nan /\ Prim2SF x <> S754_nan
          /\ Prim2SF y <> S754_nan) as (Ne & Nx & Ny).
  { repeat split; intros E; rewrite E in *;
      by destruct (Prim2SF e) as [[]|[]| |[] ? ?]. }
  assert (SFrank (Prim2SF e) = SFrank (Prim2SF x)) as Ex.
  { apply SFrank_eq; try done; unfold SFltb.
    - by destruct (SFcompare (Prim2SF e) (Prim2SF x)) as [[]|].
    - rewrite SFcompare_swap.
      by destruct (SFcompare (Prim2SF e) (Prim2SF x)) as [[]|]. }
  assert (SFrank (Prim2SF e) = SFrank (Prim2SF y)) as Ey.
  { apply SFrank_eq; try done; unfold SFltb.
    - by destruct (SFcompare (Prim2SF e) (Prim2SF y)) as [[]|].
    - rewrite SFcompare_swap.
      by destruct (SFcompare (Prim2SF e) (Prim2SF y)) as [[]|]. }
  destruct (SFcompare (Prim2SF x) (Prim2SF y)) as [[]|] eqn:E; try done.
  assert (SFltb (Prim2SF x) (Prim2SF y) = true) as Hlt
    by (unfold SFltb; by rewrite E).
  apply SFltb_rank in Hlt; [|done..].
  rewrite <- Ex, <- Ey in Hlt. unfold lexLt in Hlt.
  destruct (SFrank (Prim2SF e)) as [[? ?] ?]. lia.
Qed.

(** Of two entries that are equal to a third on the keys of [Less], neither
    must sort before the other. *)
Lemma sameRank_not_less (e x y : accept) :
  sameRank e x = true -> sameRank e y = true -> lessAccept x y = false.
Proof.
  unfold sameRank, lessAccept.
  rewrite !andb_true_iff, !Nat.eqb_eq.
  intros [[[Hq Ht] Hs] Hn] [[[Hq' Ht'] Hs'] Hn'].
  rewrite (eqb_not_ltb _ _ _ Hq' Hq), (eqb_not_ltb _ _ _ Hq Hq').
  rewrite <- Hn, <- Hn', Nat.ltb_irrefl.
  apply eqb_prop in Ht, Ht', Hs, Hs'.
  rewrite <- Ht, <- Ht', <- Hs, <- Hs'.
  by destruct (String.eqb (typ e) "*"), (String.eqb (subtype e) "*").
Qed.

(** Up to twelve entries, [sort.Sort] keeps the order of the header among
    entries of which none must sort before another.  Such are the entries
    that are equal on quality factor, type and subtype specificity and
    extension count: 0 and -0 are equal quality factors. *)
Theorem ranking_keeps_header_order_up_to_twelve
    (ParseFloat : string -> option float)
    (breakPatterns : AcceptSlice -> nat -> nat -> AcceptSlice)
    (header : string) :
  length (flat_map (rangeEntries ParseFloat) (Split header ",")) <= 12 ->
  exists accepted,
    parseAcceptHeader ParseFloat (GoSort.Sort lessAccept breakPatterns) header
    = Some accepted
    /\ (forall e : accept,
        List.filter (sameRank e) accepted
        = List.filter (sameRank e)
                      (flat_map (rangeEntries ParseFloat) (Split header ",")))
    /\ (forall tied : accept -> bool,
        (forall x y, tied x = true -> tied y = true -> lessAccept x y = false) ->
        List.filter tied accepted
        = List.filter tied
                      (flat_map (rangeEntries ParseFloat) (Split header ",")))
    /\ sameRank (mkAccept "a" "b" 0 ∅) (mkAccept "c" "d" (-0) ∅) = true.
Proof.
  intros Hlen. rewrite parseAcceptHeader_spec. eexists. split; [done|].
  rewrite Sort_insertionSort by done. split; [|split; [|reflexivity]].
  - intros e. apply insertionSort_filter, sameRank_not_less.
  - intros tied Htied. by apply insertionSort_filter.
Qed.

Lemma ranking_keeps_header_order_up_to_twelve_witness :
  exists accepted,
    parseAcceptHeader Strconv.ParseFloat
      (GoSort.Sort lessAccept (fun data _ _ => data))
      "a/*;q=0,b/*;q=0.5,c/*;q=-0,d/x,e/*;q=0" = Some accepted
    /\ (forall e : accept,
        List.filter (sameRank e) accepted
        = List.filter (sameRank e)
            (flat_map (rangeEntries Strconv.ParseFloat)
                      (Split "a/*;q=0,b/*;q=0.5,c/*;q=-0,d/x,e/*;q=0" ",")))
    /\ (forall tied : accept -> bool,
        (forall x y, tied x = true -> tied y = true -> lessAccept x y = false) ->
        List.filter tied accepted
        = List.filter tied
            (flat_map (rangeEntries Strconv.ParseFloat)
                      (Split "a/*;q=0,b/*;q=0.5,c/*;q=-0,d/x,e/*;q=0" ",")))
    /\ sameRank (mkAccept "a" "b" 0 ∅) (mkAccept "c" "d" (-0) ∅) = true.
Proof.
  apply (ranking_keeps_header_order_up_to_twelve
           Strconv.ParseFloat (fun data _ _ => data)
           "a/*;q=0,b/*;q=0.5,c/*;q=-0,d/x,e/*;q=0").
  vm_compute. lia.
Defined.

(** When no entry has the quality factor NaN, the list of
    [parseAcceptHeader] is in the order of [Less]: no entry must sort before
    one that precedes it. *)
Theorem ranking_is_ascending
    (ParseFloat : string -> option float) (Sort : AcceptSlice -> AcceptSlice)
    (header : string) (accepted : AcceptSlice) :
  GoSort.SortSpec lessAccept Sort ->
  Forall (fun e => PrimFloat.is_nan (qualityFactor e) = false)
         (flat_map (rangeEntries ParseFloat) (Split header ",")) ->
  parseAcceptHeader ParseFloat Sort header = Some accepted ->
  Permutation accepted (flat_map (rangeEntries ParseFloat) (Split header ","))
  /\ StronglySorted (fun x y => lessAccept y x = false) accepted.
Proof.
  intros HSort Hnan. rewrite parseAcceptHeader_spec. intros [= <-]. split.
  - apply (GoSort.Sort_permutation _ _ HSort).
  - apply (GoSort.Sort_ascending _ _ HSort).
    by apply lessAccept_transitiveOrdering.
Qed.

Lemma ranking_is_ascending_witness :
  parseAcceptHeader Strconv.ParseFloat (GoSort.insertionSort lessAccept)
    "*/*;q=0.1, text/*, text/html, text/html;level=1"
  = Some [mkAccept "text" "html" 1 {["level" := "1"]};
          mkAccept "text" "html" 1 ∅;
          mkAccept "text" "*" 1 ∅;
          mkAccept "*" "*" 0.1 ∅]
  /\ StronglySorted (fun x y => lessAccept y x = false)
       [mkAccept "text" "html" 1 {["level" := "1"]};
        mkAccept "text" "html" 1 ∅;
        mkAccept "text" "*" 1 ∅;
        mkAccept "*" "*" 0.1 ∅].
Proof.
  split; [by vm_compute|].
  apply (ranking_is_ascending
           Strconv.ParseFloat (GoSort.insertionSort lessAccept)
           "*/*;q=0.1, text/*, text/html, text/html;level=1" _
           (insertionSort_SortSpec lessAccept)).
  - vm_compute. repeat constructor.
  - by vm_compute.
Defined.

(** * Further properties of [accept.go] *)

(** ** The methods of [sort.Interface] *)

Lemma ltb_asym (x y : float) :
  PrimFloat.ltb x y = true -> PrimFloat.ltb y x = false.
Proof.
  rewrite !FloatAxioms.ltb_spec. unfold SFltb.
  rewrite (SFcompare_swap (Prim2SF x) (Prim2SF y)).
  by destruct (SFcompare (Prim2SF x) (Prim2SF y)) as [[]|].
Qed.

Lemma lessAccept_irrefl (x : accept) : lessAccept x x = false.
Proof.
  unfold lessAccept. rewrite ltb_irrefl, Nat.ltb_irrefl.
  by destruct (String.eqb (typ x) "*"), (String.eqb (subtype x) "*").
Qed.

Lemma lessAccept_asym (x y : accept) :
  lessAccept x y = true -> lessAccept y x = false.
Proof.
  unfold lessAccept.
  destruct (PrimFloat.ltb (qualityFactor y) (qualityFactor x)) eqn:E1.
  { by rewrite (ltb_asym _ _ E1). }
  destruct (PrimFloat.ltb (qualityFactor x) (qualityFactor y)) eqn:E2; [done|].
  destruct (String.eqb (typ x) "*"), (String.eqb (typ y) "*"),
    (String.eqb (subtype x) "*"), (String.eqb (subtype y) "*"); simpl; try done;
    destruct (Nat.ltb_spec (size (extensions y)) (size (extensions x)));
    try done; intros _;
    (destruct (Nat.ltb_spec (size (extensions x)) (size (extensions y)));
     [lia|done]).
Qed.

(** [Less] is a strict comparison on every slice, NaN or not: no element
    must sort before itself, and of two elements at most one must sort
    before the other; an index out of range panics. *)
Theorem Less_is_strict (a : AcceptSlice) (i j : nat) :
  (i < length a -> Less a i i = Some false)
  /\ (Less a i j = Some true -> Less a j i = Some false)
  /\ (length a <= i \/ length a <= j -> Less a i j = None).
Proof.
  unfold Less. repeat split.
  - intros [x ->]%lookup_lt_is_Some_2. simpl. by rewrite lessAccept_irrefl.
  - destruct (a !! i) as [x|], (a !! j) as [y|]; simpl; try done.
    intros [= H]. by rewrite (lessAccept_asym _ _ H).
  - intros [H|H]; apply lookup_ge_None_2 in H; rewrite H; [done|].
    by destruct (a !! i).
Qed.

Lemma Less_is_strict_witness :
  Less [mkAccept "a" "b" 1 ∅; mkAccept "a" "*" 1 ∅] 1 0 = Some false.
Proof.
  apply (Less_is_strict [mkAccept "a" "b" 1 ∅; mkAccept "a" "*" 1 ∅] 0 1).
  reflexivity.
Defined.

Lemma Swap_lookup (a a' : AcceptSlice) (i j : nat) :
  Swap a i j = Some a' ->
  forall k, a' !! k = if decide (k = j) then a !! i
                      else if decide (k = i) then a !! j else a !! k.
Proof.
  unfold Swap. destruct (a !! i) as [x|] eqn:Hx; [|done].
  destruct (a !! j) as [y|] eqn:Hy; [|done]. intros [= <-] k.
  pose proof (lookup_lt_Some _ _ _ Hx). pose proof (lookup_lt_Some _ _ _ Hy).
  repeat case_decide; subst.
  - apply list_lookup_insert_eq. by rewrite length_insert.
  - rewrite list_lookup_insert_ne by done. by apply list_lookup_insert_eq.
  - by rewrite !list_lookup_insert_ne.
Qed.

Lemma Swap_is_Some (a : AcceptSlice) (i j : nat) :
  i < length a -> j < length a -> exists a', Swap a i j = Some a'.
Proof.
  intros [x Hx]%lookup_lt_is_Some_2 [y Hy]%lookup_lt_is_Some_2.
  unfold Swap. rewrite Hx, Hy. eauto.
Qed.

Lemma Swap_length (a a' : AcceptSlice) (i j : nat) :
  Swap a i j = Some a' -> length a' = length a.
Proof.
  unfold Swap. destruct (a !! i); [|done]. destruct (a !! j); [|done].
  intros [= <-]. by rewrite !length_insert.
Qed.

(** [Swap] within the slice exchanges the two elements and leaves the
    others and the length as they are; done twice it gives the slice back.
    An index out of range panics. *)
Theorem Swap_exchanges (a : AcceptSlice) (i j : nat) :
  (i < length a -> j < length a ->
   exists a',
     Swap a i j = Some a'
     /\ length a' = length a
     /\ a' !! i = a !! j
     /\ a' !! j = a !! i
     /\ (forall k, k <> i -> k <> j -> a' !! k = a !! k)
     /\ Swap a' i j = Some a)
  /\ (length a <= i \/ length a <= j -> Swap a i j = None).
Proof.
  split.
  - intros Hi Hj. destruct (Swap_is_Some a i j Hi Hj) as [a' Ha'].
    pose proof (Swap_lookup _ _ _ _ Ha') as Hk.
    pose proof (Swap_length _ _ _ _ Ha') as Hlen.
    exists a'. split; [done|]. split; [done|].
    split; [rewrite Hk; repeat case_decide; congruence|].
    split; [rewrite Hk; repeat case_decide; congruence|].
    split; [intros k Hki Hkj; rewrite Hk; by repeat case_decide|].
    destruct (Swap_is_Some a' i j) as [a'' Ha'']; [lia..|].
    rewrite Ha''. f_equal. apply list_eq. intros k.
    rewrite (Swap_lookup _ _ _ _ Ha'' k), !Hk.
    repeat case_decide; congruence.
  - unfold Swap. intros [H|H]; apply lookup_ge_None_2 in H; rewrite H; [done|].
    by destruct (a !! i).
Qed.

Lemma Swap_exchanges_witness :
  exists a',
    Swap [mkAccept "a" "*" 1 ∅; mkAccept "b" "*" 1 ∅; mkAccept "c" "*" 1 ∅] 0 2
    = Some a'
    /\ length a' = 3
    /\ a' !! 0 = Some (mkAccept "c" "*" 1 ∅)
    /\ a' !! 2 = Some (mkAccept "a" "*" 1 ∅)
    /\ (forall k, k <> 0 -> k <> 2 ->
        a' !! k
        = [mkAccept "a" "*" 1 ∅; mkAccept "b" "*" 1 ∅; mkAccept "c" "*" 1 ∅] !! k)
    /\ Swap a' 0 2
       = Some [mkAccept "a" "*" 1 ∅; mkAccept "b" "*" 1 ∅; mkAccept "c" "*" 1 ∅].
Proof.
  apply (proj1 (Swap_exchanges
                  [mkAccept "a" "*" 1 ∅; mkAccept "b" "*" 1 ∅;
                   mkAccept "c" "*" 1 ∅] 0 2)); simpl; lia.
Defined.

(** ** Parameters *)

Section Parameters.

Variable ParseFloat : string -> option float.

(** One turn of the loop over the parameters. *)
Lemma validateParams_cons (v : string) (params : list string) (acc : accept) :
  validateParams ParseFloat (v :: params) acc
  = match Cut v "=" with
    | None => Some (acc, false)
    | Some (name, val) =>
        if String.eqb (TrimSpace name) "q" then
          match ParseFloat (TrimSpace val) with
          | None => Some (acc, false)
          | Some qval =>
              if PrimFloat.ltb qval 0 then Some (acc, false)
              else validateParams ParseFloat params
                     (setQualityFactor acc
                        (if PrimFloat.ltb 1 qval then 1%float else qval))
          end
        else validateParams ParseFloat params
               (setExtension acc (TrimSpace name) (TrimSpace val))
    end.
Proof.
  simpl. by destruct (Cut v "=") as [[name val]|].
Qed.

(** The parameters are valid exactly when none of them is invalid. *)
Lemma validateParams_valid (params : list string) (acc acc' : accept)
    (valid : bool) :
  validateParams ParseFloat params acc = Some (acc', valid) ->
  (valid = false <-> Exists (invalidParam ParseFloat) params).
Proof.
  revert acc. induction params as [|v params IH]; intros acc.
  - intros [= <- <-]. split; [done|inversion 1].
  - rewrite validateParams_cons, Exists_cons. unfold invalidParam at 1.
    destruct (Cut v "=") as [[name val]|]; [|intros [= <- <-]; tauto].
    destruct (String.eqb_spec (TrimSpace name) "q") as [Hq|Hq].
    + destruct (ParseFloat (TrimSpace val)) as [qval|];
        [|intros [= <- <-]; tauto].
      destruct (PrimFloat.ltb qval 0) eqn:E; [intros [= <- <-]; tauto|].
      intros H%IH. rewrite H. split; [tauto|].
      intros [[_ ?]|?]; [done|tauto].
    + intros H%IH. rewrite H. tauto.
Qed.

(** The loop goes through the parameters in turn and stops at the first
    invalid one. *)
Lemma validateParams_app (ps1 ps2 : list string) (acc : accept) :
  validateParams ParseFloat (ps1 ++ ps2) acc
  = match validateParams ParseFloat ps1 acc with
    | Some (acc', true) => validateParams ParseFloat ps2 acc'
    | r => r
    end.
Proof.
  revert acc. induction ps1 as [|v ps1 IH]; intros acc; [done|].
  rewrite <- app_comm_cons, !validateParams_cons.
  destruct (Cut v "=") as [[name val]|]; [|done].
  destruct (String.eqb (TrimSpace name) "q"); [|apply IH].
  destruct (ParseFloat (TrimSpace val)) as [qval|]; [|done].
  destruct (PrimFloat.ltb qval 0); [done|apply IH].
Qed.

(** The name [q] is never stored as an extension. *)
Lemma validateParams_no_q (params : list string) (acc acc' : accept)
    (valid : bool) :
  validateParams ParseFloat params acc = Some (acc', valid) ->
  extensions acc !! "q" = None -> extensions acc' !! "q" = None.
Proof.
  revert acc. induction params as [|v params IH]; intros acc.
  - by intros [= <- <-].
  - rewrite validateParams_cons.
    destruct (Cut v "=") as [[name val]|]; [|by intros [= <- <-]].
    destruct (String.eqb_spec (TrimSpace name) "q") as [Hq|Hq].
    + destruct (ParseFloat (TrimSpace val)) as [qval|]; [|by intros [= <- <-]].
      destruct (PrimFloat.ltb qval 0); [by intros [= <- <-]|].
      intros H Hacc. by apply (IH _ H).
    + intros H Hacc. apply (IH _ H). simpl. by rewrite lookup_insert_ne.
Qed.


Lemma Cut_free (s : string) (sep : ascii) : free sep s -> Cut s sep = None.
Proof.
  induction s as [|c s IH]; simpl; [done|]. intros [-> Hs]. by rewrite IH.
Qed.

Lemma Cut_append (s r : string) (sep : ascii) :
  free sep s -> Cut (String.append s (String sep r)) sep = Some (s, r).
Proof.
  induction s as [|c s IH]; simpl.
  - by rewrite Ascii.eqb_refl.
  - intros [-> Hs]. by rewrite IH.
Qed.

Lemma Split_snoc (s p : string) (sep : ascii) :
  free sep p ->
  Split (String.append s (String sep p)) sep = Split s sep ++ [p].
Proof.
  intros Hp. induction s as [|c s IH]; simpl.
  - by rewrite Ascii.eqb_refl, Split_free.
  - destruct (Ascii.eqb c sep); [by rewrite IH|].
    rewrite IH. by destruct (Split_cons s sep) as (q & qs & ->).
Qed.

(** The entries of a range: none when the pair has more than two segments
    or a parameter is invalid, and otherwise the one entry that the loop over
    the parameters leaves. *)
Lemma rangeEntries_cases (m : string) :
  (2 < typeSubtypeSegments m /\ rangeEntries ParseFloat m = [])
  \/ (typeSubtypeSegments m <= 2
      /\ exists t0 t1 acc valid,
          validateParams ParseFloat (tail (Split m ";"))
                         (mkAccept (orStar t0) (orStar t1) 1 ∅)
          = Some (acc, valid)
          /\ rangeEntries ParseFloat m = if valid then [acc] else []).
Proof.
  unfold rangeEntries, acceptRange.
  destruct (parseMediaRange_cases m) as [(H & ts & e & ->)|(H & t0 & t1 & r & ->)];
    simpl; [by left|right]. split; [done|].
  destruct (Split_cons m ";") as (rp0 & rps & E). rewrite E. simpl.
  destruct (validateParams_total ParseFloat rps
              (mkAccept (orStar t0) (orStar t1) 1 ∅))
    as (acc & valid & Hv & _).
  exists t0, t1, acc, valid. split; [done|].
  destruct rps as [|p rps].
  - simpl in *. by injection Hv as <- <-.
  - rewrite Hv. simpl. by destruct valid.
Qed.

End Parameters.

(** A range gives no entry exactly when its type/subtype pair has more than
    two segments or one of its parameters is invalid: it has no [=], or its
    name is [q] and its value does not parse or is negative.  It never gives
    more than one entry. *)
Theorem range_is_dropped_iff
    (ParseFloat : string -> option float) (m : string) :
  (rangeEntries ParseFloat m = []
   <-> 2 < typeSubtypeSegments m
       \/ Exists (invalidParam ParseFloat) (tail (Split m ";")))
  /\ length (rangeEntries ParseFloat m) <= 1.
Proof.
  destruct (rangeEntries_cases ParseFloat m)
    as [[H ->]|(H & t0 & t1 & acc & valid & Hv & ->)].
  - split; [tauto|simpl; lia].
  - apply validateParams_valid in Hv. destruct valid; simpl; split; try lia.
    + split; [done|]. intros [?|Hex]; [lia|]. by apply Hv in Hex.
    + split; [|done]. intros _. right. by apply Hv.
Qed.

(** [parseAcceptHeader] returns at most as many entries as the header has
    ranges. *)
Theorem parseAcceptHeader_length
    (ParseFloat : string -> option float) (Sort : AcceptSlice -> AcceptSlice)
    (header : string) (accepted : AcceptSlice) :
  GoSort.SortSpec lessAccept Sort ->
  parseAcceptHeader ParseFloat Sort header = Some accepted ->
  length accepted <= length (Split header ",").
Proof.
  intros HSort. rewrite parseAcceptHeader_spec. intros [= <-].
  rewrite (Permutation_length (GoSort.Sort_permutation _ _ HSort _)).
  induction (Split header ",") as [|m ms IH]; simpl; [done|].
  rewrite length_app.
  destruct (rangeEntries_cases ParseFloat m)
    as [[_ ->]|(_ & t0 & t1 & acc & [|] & _ & ->)]; simpl; lia.
Qed.

(** No entry of [parseAcceptHeader] has [q] among its extensions. *)
Theorem q_is_not_an_extension
    (ParseFloat : string -> option float) (Sort : AcceptSlice -> AcceptSlice)
    (header : string) (accepted : AcceptSlice) (e : accept) :
  GoSort.SortSpec lessAccept Sort ->
  parseAcceptHeader ParseFloat Sort header = Some accepted ->
  In e accepted ->
  extensions e !! "q" = None.
Proof.
  intros HSort. rewrite parseAcceptHeader_spec. intros [= <-] He.
  apply (Permutation_in _ (GoSort.Sort_permutation _ _ HSort _)) in He.
  apply in_flat_map in He as (m & _ & He).
  destruct (rangeEntries_cases ParseFloat m)
    as [[_ E]|(_ & t0 & t1 & acc & valid & Hv & E)]; rewrite E in He; [done|].
  destruct valid; [|done]. destruct He as [<-|[]].
  by apply (validateParams_no_q _ _ _ _ _ Hv).
Qed.

Lemma parseAcceptHeader_length_witness :
  parseAcceptHeader Strconv.ParseFloat (GoSort.insertionSort lessAccept)
    "text/html;,a/b/c,text/plain;q=x,application/json"
  = Some [mkAccept "application" "json" 1 ∅]
  /\ length [mkAccept "application" "json" 1 ∅]
     <= length (Split "text/html;,a/b/c,text/plain;q=x,application/json" ",").
Proof.
  split; [by vm_compute|].
  apply (parseAcceptHeader_length
           Strconv.ParseFloat (GoSort.insertionSort lessAccept)
           "text/html;,a/b/c,text/plain;q=x,application/json" _
           (insertionSort_SortSpec lessAccept)).
  by vm_compute.
Defined.

Lemma q_is_not_an_extension_witness :
  parseAcceptHeader Strconv.ParseFloat (GoSort.insertionSort lessAccept)
    "text/html;level=1;q=0.5"
  = Some [mkAccept "text" "html" 0.5 {["level" := "1"]}]
  /\ extensions (mkAccept "text" "html" 0.5 {["level" := "1"]}) !! "q" = None.
Proof.
  split; [by vm_compute|].
  apply (q_is_not_an_extension
           Strconv.ParseFloat (GoSort.insertionSort lessAccept)
           "text/html;level=1;q=0.5"
           [mkAccept "text" "html" 0.5 {["level" := "1"]}] _
           (insertionSort_SortSpec lessAccept)).
  - by vm_compute.
  - by left.
Defined.

(** ** Ranges *)

Lemma free_append (sep : ascii) (s r : string) :
  free sep s -> free sep r -> free sep (String.append s r).
Proof.
  induction s as [|c s IH]; simpl; [done|]. intros [Hc Hs] Hr. auto.
Qed.

Lemma parseMediaRange_unfold (m : string) :
  exists rp0 rest,
    Split m ";" = rp0 :: rest
    /\ parseMediaRange m
       = Some (rp0 :: rest,
               match Split rp0 "/" with
               | [t] => [orStar (TrimSpace t); "*"]
               | [t; s] => [orStar (TrimSpace t); orStar (TrimSpace s); "*"]
               | ts => ts
               end,
               if decide (2 < typeSubtypeSegments m)
               then Some (String.append "accept: Invalid type '"
                                        (String.append rp0 "'."))
               else None).
Proof.
  destruct (Split_cons m ";") as (rp0 & rest & E). exists rp0, rest.
  split; [done|]. unfold parseMediaRange, typeSubtypeSegments. rewrite E. simpl.
  destruct (Split_cons rp0 "/") as (a & l & ->).
  destruct l as [|b [|c l]]; simpl.
  - unfold orStar. by destruct (String.eqb (TrimSpace a) "").
  - unfold orStar. destruct (String.eqb (TrimSpace a) ""); simpl;
      by destruct (String.eqb (TrimSpace b) "").
  - done.
Qed.

(** [parseMediaRange] never panics.  It fails exactly when the type/subtype
    pair has more than two segments, and its error names the pair; otherwise
    it gives the type and the subtype, trimmed, with [*] for an empty one and
    for a subtype that is not there, and one more [*] behind a subtype that
    is. *)
Theorem parseMediaRange_result (m : string) :
  exists rp0 rest,
    Split m ";" = rp0 :: rest
    /\ parseMediaRange m
       = Some (rp0 :: rest,
               match Split rp0 "/" with
               | [t] => [orStar (TrimSpace t); "*"]
               | [t; s] => [orStar (TrimSpace t); orStar (TrimSpace s); "*"]
               | ts => ts
               end,
               if decide (2 < typeSubtypeSegments m)
               then Some (String.append "accept: Invalid type '"
                                        (String.append rp0 "'."))
               else None).
Proof. apply parseMediaRange_unfold. Qed.

Section Ranges.

Variable ParseFloat : string -> option float.

(** The last parameter of a range decides: if its name is [q], the quality
    factor of the entry is its value, 1 at most; otherwise the extension of
    that name is its value. *)
Theorem last_parameter_decides (m name val : string) (e : accept) :
  free ";" name -> free ";" val -> free "=" name ->
  In e (rangeEntries ParseFloat
          (String.append m (String ";" (String.append name (String "=" val))))) ->
  if String.eqb (TrimSpace name) "q" then
    exists q, ParseFloat (TrimSpace val) = Some q
              /\ PrimFloat.ltb q 0 = false
              /\ qualityFactor e = (if PrimFloat.ltb 1 q then 1%float else q)
  else extensions e !! TrimSpace name = Some (TrimSpace val).
Proof.
  intros Hn Hv Hname He.
  set (p := String.append name (String "=" val)) in *.
  assert (free ";" p) as Hp by (apply free_append; [done|by split]).
  destruct (rangeEntries_cases ParseFloat (String.append m (String ";" p)))
    as [[_ E]|(_ & t0 & t1 & acc & valid & Hval & E)];
    rewrite E in He; [done|].
  destruct valid; [|done]. destruct He as [<-|[]].
  rewrite Split_snoc in Hval by done.
  destruct (Split_cons m ";") as (rp0 & rps & Em). rewrite Em in Hval.
  simpl in Hval. rewrite validateParams_app in Hval.
  destruct (validateParams ParseFloat rps _) as [[acc1 [|]]|]; try done.
  rewrite validateParams_cons in Hval. unfold p in Hval.
  rewrite Cut_append in Hval by done.
  destruct (String.eqb (TrimSpace name) "q").
  - destruct (ParseFloat (TrimSpace val)) as [q|]; [|done].
    destruct (PrimFloat.ltb q 0) eqn:E0; [done|].
    injection Hval as <-. by exists q.
  - injection Hval as <-. simpl. apply lookup_insert_eq.
Qed.

Lemma TrimSpace_space (s : string) : TrimSpace (String " " s) = TrimSpace s.
Proof. reflexivity. Qed.

Lemma Split_space (s : string) (sep : ascii) :
  Ascii.eqb " " sep = false ->
  exists p ps, Split s sep = p :: ps
               /\ Split (String " " s) sep = String " " p :: ps.
Proof.
  intros Hsep. destruct (Split_cons s sep) as (p & ps & E).
  exists p, ps. split; [done|].
  change (Split (String " " s) sep)
    with (if Ascii.eqb " " sep then EmptyString :: Split s sep
          else match Split s sep with
               | q :: qs => String " " q :: qs
               | [] => [String " " EmptyString]
               end).
  by rewrite Hsep, E.
Qed.

(** A space in front of a range changes nothing. *)
Lemma rangeEntries_space (m : string) :
  rangeEntries ParseFloat (String " " m) = rangeEntries ParseFloat m.
Proof.
  unfold rangeEntries, acceptRange.
  destruct (parseMediaRange_unfold m) as (rp0 & rps & E & ->).
  destruct (parseMediaRange_unfold (String " " m)) as (rp0' & rps' & E' & ->).
  destruct (Split_space m ";") as (p & ps & Ep & Ep'); [done|].
  rewrite Ep in E. rewrite Ep' in E'.
  injection E as <- <-. injection E' as <- <-.
  assert (typeSubtypeSegments (String " " m) = typeSubtypeSegments m) as ->.
  { unfold typeSubtypeSegments. rewrite Ep, Ep'.
    by destruct (Split_space p "/") as (a & l & -> & ->). }
  cbn [mbind option_bind].
  case_decide as Hseg; [done|].
  unfold typeSubtypeSegments in Hseg. rewrite Ep in Hseg.
  destruct (Split_space p "/") as (a & l & Ea & ->); [done|].
  rewrite Ea in *.
  destruct l as [|b [|c l]]; [by rewrite ?TrimSpace_space..|].
  simpl in Hseg. lia.
Qed.

End Ranges.

Lemma last_parameter_decides_witness :
  In (mkAccept "text" "html" 1 {["level" := "2"]})
     (rangeEntries Strconv.ParseFloat "text/html;level=1;q=0.2;q=7; level = 2 ")
  /\ (if String.eqb (TrimSpace " level ") "q" then
        exists q, Strconv.ParseFloat (TrimSpace " 2 ") = Some q
                  /\ PrimFloat.ltb q 0 = false
                  /\ qualityFactor (mkAccept "text" "html" 1 {["level" := "2"]})
                     = (if PrimFloat.ltb 1 q then 1%float else q)
      else extensions (mkAccept "text" "html" 1 {["level" := "2"]})
             !! TrimSpace " level " = Some (TrimSpace " 2 ")).
Proof.
  assert (In (mkAccept "text" "html" 1 {["level" := "2"]})
            (rangeEntries Strconv.ParseFloat
               "text/html;level=1;q=0.2;q=7; level = 2 ")) as H
    by (vm_compute; by left).
  split; [done|].
  apply (last_parameter_decides Strconv.ParseFloat
           "text/html;level=1;q=0.2;q=7" " level " " 2 "); [by vm_compute..|done].
Defined.

(** ** Headers *)

(** A space after a comma changes nothing: a header parses as the header
    in which some ranges have lost the space in front of them. *)
Theorem space_after_comma_is_ignored
    (ParseFloat : string -> option float) (Sort : AcceptSlice -> AcceptSlice)
    (ts ts' : list string) :
  ts <> [] -> Forall (free ",") ts ->
  Forall2 (fun t t' => t' = t \/ t' = String " " t) ts ts' ->
  parseAcceptHeader ParseFloat Sort (Join ts' ",")
  = parseAcceptHeader ParseFloat Sort (Join ts ",").
Proof.
  intros Hne Hfree Hrel.
  assert (Forall (free ",") ts') as Hfree'.
  { clear Hne. induction Hrel as [|t t' ts ts' [->| ->] _ IH];
      inversion Hfree; subst; constructor; auto. by split. }
  assert (ts' <> []) as Hne' by (by destruct Hrel).
  rewrite !parseAcceptHeader_spec, !Split_Join by done. do 2 f_equal.
  clear Hne Hne' Hfree Hfree'.
  induction Hrel as [|t t' ts ts' [->| ->] _ IH]; simpl; [done|..];
    by rewrite ?rangeEntries_space, IH.
Qed.

Lemma space_after_comma_is_ignored_witness :
  parseAcceptHeader Strconv.ParseFloat (GoSort.insertionSort lessAccept)
    "text/html, application/json;q=0.5, */*;q=0.1"
  = parseAcceptHeader Strconv.ParseFloat (GoSort.insertionSort lessAccept)
      "text/html,application/json;q=0.5,*/*;q=0.1".
Proof.
  apply (space_after_comma_is_ignored
           Strconv.ParseFloat (GoSort.insertionSort lessAccept)
           ["text/html"; "application/json;q=0.5"; "*/*;q=0.1"]
           ["text/html"; " application/json;q=0.5"; " */*;q=0.1"]).
  - done.
  - repeat constructor.
  - constructor; [by left|]. constructor; [by right|].
    constructor; [by right|]. constructor.
Defined.

(** The quality factor plays no part in the choice: a header with the range
    [application/json;q=v] is answered with [decodeTypeJSON] whenever [v] is
    read as a number that is not negative, zero included. *)
Theorem quality_factor_is_not_consulted
    (ParseFloat : string -> option float) (Sort : AcceptSlice -> AcceptSlice)
    (header : string) (i : nat) (v : string) (q : float) :
  GoSort.SortSpec lessAccept Sort ->
  Split header "," !! i = Some (String.append "application/json;q=" v) ->
  free ";" v ->
  ParseFloat (TrimSpace v) = Some q ->
  PrimFloat.ltb q 0 = false ->
  bestFitDecodeType ParseFloat Sort header = Some decodeTypeJSON.
Proof.
  intros HSort Hi Hv Hq H0.
  assert (rangeEntries ParseFloat (String.append "application/json;q=" v)
          = [mkAccept "application" "json"
                      (if PrimFloat.ltb 1 q then 1%float else q) ∅]) as E.
  { unfold rangeEntries, acceptRange.
    destruct (parseMediaRange_unfold (String.append "application/json;q=" v))
      as (rp0 & rps & Es & ->).
    change (String.append "application/json;q=" v)
      with (String.append "application/json" (String ";" (String.append "q=" v)))
      in Es.
    rewrite Split_append, Split_free in Es by (by vm_compute).
    injection Es as <- <-.
    assert (typeSubtypeSegments (String.append "application/json;q=" v) = 2)
      as ->.
    { unfold typeSubtypeSegments.
      change (String.append "application/json;q=" v)
        with (String.append "application/json"
                            (String ";" (String.append "q=" v))).
      by rewrite Split_append by (by vm_compute). }
    change (Split "application/json" "/") with ["application"; "json"].
    change (orStar (TrimSpace "application")) with "application".
    change (orStar (TrimSpace "json")) with "json".
    cbn [mbind option_bind decide_rel]. rewrite decide_False by lia.
    cbn [lookup list_lookup mbind option_bind length Nat.eqb].
    rewrite validateParams_cons.
    change (Cut (String.append "q=" v) "=") with (Some ("q", v)).
    change (String.eqb (TrimSpace "q") "q") with true. cbv iota.
    rewrite Hq, H0. reflexivity. }
  rewrite (bestFitDecodeType_entries _ _ HSort).
  assert (Exists acceptsJSON
            (flat_map (rangeEntries ParseFloat) (Split header ","))) as Hex.
  { apply List.Exists_exists. eexists. split.
    - apply in_flat_map. eexists. split.
      + apply list_elem_of_In, list_elem_of_lookup. eauto.
      + rewrite E. by left.
    - right. simpl. auto. }
  destruct (flat_map _ _) as [|e es]; [done|].
  f_equal. by apply bestFit_JSON.
Qed.

Lemma quality_factor_is_not_consulted_witness :
  bestFitDecodeType Strconv.ParseFloat (GoSort.insertionSort lessAccept)
    "text/html,application/json;q=0" = Some decodeTypeJSON.
Proof.
  apply (quality_factor_is_not_consulted
           Strconv.ParseFloat (GoSort.insertionSort lessAccept)
           "text/html,application/json;q=0" 1 "0" 0
           (insertionSort_SortSpec lessAccept)); by vm_compute.
Defined.

(** A range with no slash and no parameter is a type with any subtype, and
    an empty or blank one, as after a comma at the end of the header, is
    [*/*].  So a header with a range that is blank, [*] or [application] is
    answered with JSON whatever its other ranges are. *)
Theorem range_without_slash
    (ParseFloat : string -> option float) (Sort : AcceptSlice -> AcceptSlice)
    (header : string) (i : nat) (m : string) :
  GoSort.SortSpec lessAccept Sort ->
  Split header "," !! i = Some m ->
  free ";" m -> free "/" m ->
  rangeEntries ParseFloat m = [mkAccept (orStar (TrimSpace m)) "*" 1 ∅]
  /\ (TrimSpace m = "" \/ TrimSpace m = "*" \/ TrimSpace m = "application" ->
      bestFitDecodeType ParseFloat Sort header = Some decodeTypeJSON).
Proof.
  intros HSort Hi Hsemi Hslash.
  assert (rangeEntries ParseFloat m = [mkAccept (orStar (TrimSpace m)) "*" 1 ∅])
    as E.
  { unfold rangeEntries, acceptRange.
    destruct (parseMediaRange_unfold m) as (rp0 & rps & Es & ->).
    assert (typeSubtypeSegments m = 1) as ->.
    { unfold typeSubtypeSegments. by rewrite !Split_free. }
    rewrite Split_free in Es by done. injection Es as <- <-.
    by rewrite Split_free. }
  split; [done|]. intros Ht.
  rewrite (bestFitDecodeType_entries _ _ HSort).
  assert (Exists acceptsJSON
            (flat_map (rangeEntries ParseFloat) (Split header ","))) as Hex.
  { apply List.Exists_exists. eexists. split.
    - apply in_flat_map. eexists. split.
      + apply list_elem_of_In, list_elem_of_lookup. eauto.
      + rewrite E. by left.
    - unfold acceptsJSON. simpl.
      destruct Ht as [ -> | [ -> | -> ] ]; [left|left|right]; simpl; auto. }
  destruct (flat_map _ _) as [|e es]; [done|].
  f_equal. by apply bestFit_JSON.
Qed.

Lemma range_without_slash_witness :
  rangeEntries Strconv.ParseFloat " " = [mkAccept (orStar (TrimSpace " ")) "*" 1 ∅]
  /\ (TrimSpace " " = "" \/ TrimSpace " " = "*" \/ TrimSpace " " = "application" ->
      bestFitDecodeType Strconv.ParseFloat (GoSort.insertionSort lessAccept)
        "text/html, " = Some decodeTypeJSON).
Proof.
  apply (range_without_slash
           Strconv.ParseFloat (GoSort.insertionSort lessAccept)
           "text/html, " 1 " "
           (insertionSort_SortSpec lessAccept)); by vm_compute.
Defined.

Import Http Auth.

(** ** The API-key transport *)

Lemma HeaderAdd_lookup (h : Header) (key value k : string) :
  CanonicalMIMEHeaderKey key = k ->
  HeaderAdd h key value !! k = Some (default [] (h !! k) ++ [value]).
Proof. intros <-. unfold HeaderAdd. apply lookup_insert_eq. Qed.

Lemma HeaderAdd_lookup_ne (h : Header) (key value k : string) :
  CanonicalMIMEHeaderKey key <> k -> HeaderAdd h key value !! k = h !! k.
Proof. intros Hne. unfold HeaderAdd. by apply lookup_insert_ne. Qed.

Lemma HeaderSet_lookup (h : Header) (key value k : string) :
  CanonicalMIMEHeaderKey key = k -> HeaderSet h key value !! k = Some [value].
Proof. intros <-. unfold HeaderSet. apply lookup_insert_eq. Qed.

Lemma HeaderSet_lookup_ne (h : Header) (key value k : string) :
  CanonicalMIMEHeaderKey key <> k -> HeaderSet h key value !! k = h !! k.
Proof. intros Hne. unfold HeaderSet. by apply lookup_insert_ne. Qed.

(** Lookups of a key that is written out, through the writes of the
    transport. *)
Ltac header_lookup :=
  repeat first
    [ rewrite HeaderAdd_lookup by reflexivity
    | rewrite HeaderSet_lookup by reflexivity
    | rewrite HeaderAdd_lookup_ne by (vm_compute; discriminate)
    | rewrite HeaderSet_lookup_ne by (vm_compute; discriminate) ].

Lemma parsebytes_eq (req : Request) :
  parsebytes req = (default "" (Body req), req).
Proof. unfold parsebytes. by destruct req as [m u h [b|]]. Qed.

(** What [RoundTrip] does up to the call of the transport, all cases. *)
Lemma authorize_unfold
    (URLString : URL -> string) (auth : APIKey) (now : Z) (req : Request) :
  authorize URLString auth now req
  = Some
      match url auth with
      | None => inr ErrURLRequired
      | Some u =>
          match generateSig auth
                  (FormatInt now +:+ Method req
                   +:+ Replace1 (URLString (ReqURL req)) (URLString u) ""
                   +:+ default "" (Body req)) with
          | inr err => inr err
          | inl sig =>
              inl (mkRequest
                     (Method req)
                     (mkURL (Scheme u) (Host u) (Path (ReqURL req))
                            (RawQuery (ReqURL req)))
                     (HeaderAdd
                        (HeaderAdd
                           (HeaderAdd
                              (HeaderAdd
                                 (HeaderSet (ReqHeader req) "content-type"
                                            "application/json")
                                 "cb-access-key" (key auth))
                              "cb-access-passphrase" (passphrase auth))
                           "cb-access-sign" sig)
                        "cb-access-timestamp" (FormatInt now))
                     (Body req))
          end
      end.
Proof.
  unfold authorize, generageMsg. destruct (url auth) as [u|]; [|done].
  simpl. rewrite parsebytes_eq. cbn [mbind option_bind].
  by destruct (generateSig auth _).
Qed.

(** C3, as the code has it.  With a URL and a secret that is base64,
    [RoundTrip] hands [http.DefaultTransport] one request and returns what
    the transport answers.  That request carries the digest, the timestamp,
    the key and the passphrase, each added to its header, and the content
    type [application/json]; its scheme and host are those of the configured
    URL; the method, the path, the query, the body and every other header
    are those of the request received.  The digest is the base64 text of the
    HMAC-SHA256, under the decoded secret, of the timestamp, the method, the
    text of the URL received without the text of the configured URL, and the
    body; this holds whatever text [URL.String] gives. *)
Theorem RoundTrip_request_frame
    (URLString : URL -> string)
    (Response : Type) (DefaultTransport : Request -> Response + string)
    (auth : APIKey) (now : Z) (req : Request) (u : URL) (k : string) :
  url auth = Some u ->
  Base64.DecodeString (secret auth) = Some k ->
  exists (req' : Request) (sig : string),
    RoundTrip URLString Response DefaultTransport auth now req
    = Some match DefaultTransport req' with
           | inl rsp => inl rsp
           | inr e => inr (errMakingRequest e)
           end
    /\ sig = Base64.EncodeToString
               (Base64.ofBytes
                  (SHA256.hmac
                     (Base64.bytes k)
                     (Base64.bytes
                        (FormatInt now +:+ Method req
                         +:+ Replace1 (URLString (ReqURL req)) (URLString u) ""
                         +:+ default "" (Body req)))))
    /\ ReqHeader req' !! "Cb-Access-Sign"
       = Some (default [] (ReqHeader req !! "Cb-Access-Sign") ++ [sig])
    /\ ReqHeader req' !! "Cb-Access-Timestamp"
       = Some (default [] (ReqHeader req !! "Cb-Access-Timestamp") ++ [FormatInt now])
    /\ ReqHeader req' !! "Cb-Access-Key"
       = Some (default [] (ReqHeader req !! "Cb-Access-Key") ++ [key auth])
    /\ ReqHeader req' !! "Cb-Access-Passphrase"
       = Some (default [] (ReqHeader req !! "Cb-Access-Passphrase") ++ [passphrase auth])
    /\ ReqHeader req' !! "Content-Type" = Some ["application/json"]
    /\ (forall k, ~ In k signedKeys -> ReqHeader req' !! k = ReqHeader req !! k)
    /\ ReqURL req'
       = mkURL (Scheme u) (Host u) (Path (ReqURL req)) (RawQuery (ReqURL req))
    /\ Method req' = Method req
    /\ Body req' = Body req.
Proof.
  intros Hu Hk. unfold RoundTrip. rewrite authorize_unfold, Hu.
  unfold generateSig. rewrite Hk. cbn [mbind option_bind].
  match goal with
  | |- context [DefaultTransport ?r] => exists r
  end.
  eexists. split; [by destruct (DefaultTransport _)|].
  split; [reflexivity|]. cbn [Method ReqURL ReqHeader Body].
  repeat split; try done; try (by header_lookup).
  intros k' Hk'. unfold signedKeys in Hk'. simpl in Hk'.
  rewrite !HeaderAdd_lookup_ne, HeaderSet_lookup_ne; try done;
    intros E; apply Hk'; rewrite <- E; auto 10.
Qed.

Lemma RoundTrip_request_frame_witness :
  RoundTrip URLString Request inl exampleAPIKey 1700000000 exampleRequest
  = Some (inl exampleSigned)
  /\ exists (req' : Request) (sig : string),
    RoundTrip URLString Request inl exampleAPIKey 1700000000 exampleRequest
    = Some match @inl Request string req' with
           | inl rsp => inl rsp
           | inr e => inr (errMakingRequest e)
           end
    /\ sig = Base64.EncodeToString
               (Base64.ofBytes
                  (SHA256.hmac
                     (Base64.bytes "secret")
                     (Base64.bytes
                        (FormatInt 1700000000 +:+ Method exampleRequest
                         +:+ Replace1
                               (URLString (ReqURL exampleRequest))
                               (URLString
                                  (mkURL "https" "api.exchange.coinbase.com" "" ""))
                               ""
                         +:+ default "" (Body exampleRequest)))))
    /\ ReqHeader req' !! "Cb-Access-Sign"
       = Some (default [] (ReqHeader exampleRequest !! "Cb-Access-Sign") ++ [sig])
    /\ ReqHeader req' !! "Cb-Access-Timestamp"
       = Some (default [] (ReqHeader exampleRequest !! "Cb-Access-Timestamp")
               ++ [FormatInt 1700000000])
    /\ ReqHeader req' !! "Cb-Access-Key"
       = Some (default [] (ReqHeader exampleRequest !! "Cb-Access-Key")
               ++ [key exampleAPIKey])
    /\ ReqHeader req' !! "Cb-Access-Passphrase"
       = Some (default [] (ReqHeader exampleRequest !! "Cb-Access-Passphrase")
               ++ [passphrase exampleAPIKey])
    /\ ReqHeader req' !! "Content-Type" = Some ["application/json"]
    /\ (forall k, ~ In k signedKeys ->
        ReqHeader req' !! k = ReqHeader exampleRequest !! k)
    /\ ReqURL req'
       = mkURL (Scheme (mkURL "https" "api.exchange.coinbase.com" "" ""))
               (Host (mkURL "https" "api.exchange.coinbase.com" "" ""))
               (Path (ReqURL exampleRequest))
               (RawQuery (ReqURL exampleRequest))
    /\ Method req' = Method exampleRequest
    /\ Body req' = Body exampleRequest.
Proof.
  split; [by vm_compute|].
  apply (RoundTrip_request_frame URLString Request inl
           exampleAPIKey 1700000000 exampleRequest
           (mkURL "https" "api.exchange.coinbase.com" "" "") "secret");
    reflexivity.
Defined.

(** C3, as the claim has it, fails on [exampleRequest]: the transport is
    handed a request with another scheme and host, another content type and
    a passphrase header (the transport is here one that answers with the
    request it is handed). *)
Lemma RoundTrip_changes_url_and_headers :
  RoundTrip URLString Request inl exampleAPIKey 1700000000 exampleRequest
  = Some (inl exampleSigned)
  /\ ReqURL exampleSigned <> ReqURL exampleRequest
  /\ ReqHeader exampleSigned !! "Content-Type"
     <> ReqHeader exampleRequest !! "Content-Type"
  /\ ReqHeader exampleSigned !! "Cb-Access-Passphrase"
     <> ReqHeader exampleRequest !! "Cb-Access-Passphrase".
Proof. by vm_compute. Qed.

(** * Further properties of [api_key.go] *)

Section RoundTripFacts.

Variable URLString : URL -> string.
Variable Response : Type.
Variable DefaultTransport : Request -> Response + string.

(** [RoundTrip] never panics.  Without a URL it returns [ErrURLRequired],
    and with a secret that is not base64 the decoding error, in both cases
    without a call of the transport; otherwise it hands the transport one
    request and returns its response, or its error wrapped. *)
Theorem RoundTrip_cases (auth : APIKey) (now : Z) (req : Request) :
  (url auth = None /\
   RoundTrip URLString Response DefaultTransport auth now req
   = Some (inr ErrURLRequired))
  \/ (url auth <> None /\ Base64.DecodeString (secret auth) = None /\
      RoundTrip URLString Response DefaultTransport auth now req
      = Some (inr errDecodingSecret))
  \/ (url auth <> None /\ Base64.DecodeString (secret auth) <> None /\
      exists req',
        authorize URLString auth now req = Some (inl req')
        /\ RoundTrip URLString Response DefaultTransport auth now req
           = Some match DefaultTransport req' with
                  | inl rsp => inl rsp
                  | inr e => inr (errMakingRequest e)
                  end).
Proof.
  unfold RoundTrip. rewrite authorize_unfold.
  destruct (url auth) as [u|]; [|by left]. right.
  unfold generateSig.
  destruct (Base64.DecodeString (secret auth)) as [k|]; [right|by left].
  split; [done|]. split; [done|]. eexists. split; [done|].
  simpl. by destruct (DefaultTransport _).
Qed.

(** A key that was given no URL, or one that [url.Parse] refuses, makes a
    transport that fails with [ErrURLRequired] on every request; the other
    setters do not change this. *)
Theorem RoundTrip_without_URL
    (Parse : string -> option URL) (k p s u : string) (now : Z) (req : Request) :
  RoundTrip URLString Response DefaultTransport
    (SetSecret (SetPassphrase (SetKey NewAPIKey k) p) s) now req
  = Some (inr ErrURLRequired)
  /\ (Parse u = None ->
      RoundTrip URLString Response DefaultTransport
        (SetSecret (SetPassphrase (SetKey (SetURL Parse NewAPIKey u) k) p) s)
        now req
      = Some (inr ErrURLRequired)).
Proof.
  split; [done|]. intros H. unfold RoundTrip. rewrite authorize_unfold.
  simpl. by rewrite H.
Qed.

End RoundTripFacts.

(** ** The signature *)

Lemma length_list_ascii_of_string (s : string) :
  length (list_ascii_of_string s) = String.length s.
Proof. induction s; simpl; congruence. Qed.

Lemma length_string_of_list_ascii (l : list ascii) :
  String.length (string_of_list_ascii l) = length l.
Proof. induction l; simpl; congruence. Qed.

Lemma length_bytes_ofBytes (l : list Z) :
  length (Base64.bytes (Base64.ofBytes l)) = length l.
Proof.
  unfold Base64.bytes, Base64.ofBytes.
  by rewrite length_map, list_ascii_of_string_of_list_ascii, length_map.
Qed.

(** The digest has 32 bytes. *)
Lemma length_round (st : list Z) (kw : Z * Z) :
  length (SHA256.round st kw) = length st.
Proof.
  unfold SHA256.round.
  by do 9 (destruct st as [|? st]; try reflexivity).
Qed.

Lemma length_compress (h block : list Z) :
  length (SHA256.compress h block) = length h.
Proof.
  unfold SHA256.compress. rewrite length_map, length_combine.
  assert (forall kws st, length (fold_left SHA256.round kws st) = length st) as E.
  { induction kws as [|kw kws IH]; intros st; simpl; [done|].
    by rewrite IH, length_round. }
  rewrite E. lia.
Qed.

Lemma length_blocks (fuel : nat) (h l : list Z) :
  length (SHA256.blocks fuel h l) = length h.
Proof.
  revert h l. induction fuel as [|fuel IH]; intros h l; simpl; [done|].
  destruct l; [done|]. by rewrite IH, length_compress.
Qed.

Lemma length_sum (msg : list Z) : length (SHA256.sum msg) = 32.
Proof.
  unfold SHA256.sum.
  assert (forall ws, length (flat_map SHA256.wordBytes ws) = 4 * length ws) as E.
  { induction ws as [|w ws IH]; simpl; lia. }
  by rewrite E, length_blocks.
Qed.

Lemma length_hmac (key message : list Z) :
  length (SHA256.hmac key message) = 32.
Proof. unfold SHA256.hmac. apply length_sum. Qed.

(** 32 bytes are encoded on 44 characters, the last of which is the
    padding. *)
Lemma encode_32 (l : list Z) :
  length l = 32 ->
  exists body, Base64.encode l = body ++ ["="%char] /\ length body = 43.
Proof.
  intros H. do 33 (destruct l as [|? l]; try discriminate H).
  cbn [Base64.encode].
  eexists (_ :: _ :: _ :: _ :: _ :: _ :: _ :: _ :: _ :: _ :: _ :: _ :: _ :: _
           :: _ :: _ :: _ :: _ :: _ :: _ :: _ :: _ :: _ :: _ :: _ :: _ :: _ :: _
           :: _ :: _ :: _ :: _ :: _ :: _ :: _ :: _ :: _ :: _ :: _ :: _ :: _ :: _
           :: _ :: []).
  split; reflexivity.
Qed.

Lemma string_of_list_ascii_app (l1 l2 : list ascii) :
  string_of_list_ascii (l1 ++ l2)
  = string_of_list_ascii l1 +:+ string_of_list_ascii l2.
Proof. induction l1 as [|a l1 IH]; simpl; [done|]. by rewrite IH. Qed.

(** [generateSig] fails exactly when the secret is not base64, and the
    message plays no part in that; a signature has 44 characters and ends
    with the padding character. *)
Theorem generateSig_signature (auth : APIKey) (message : string) :
  (generateSig auth message = inr errDecodingSecret
   <-> Base64.DecodeString (secret auth) = None)
  /\ (forall sig, generateSig auth message = inl sig ->
      String.length sig = 44
      /\ exists body, sig = body +:+ "=")
  /\ (forall err, generateSig auth message = inr err ->
      forall message', generateSig auth message' = inr err).
Proof.
  unfold generateSig.
  destruct (Base64.DecodeString (secret auth)) as [k|]; [|by repeat split].
  split; [done|]. split; [|done]. intros sig [= <-].
  unfold Base64.EncodeToString.
  destruct (encode_32 (Base64.bytes (Base64.ofBytes
              (SHA256.hmac (Base64.bytes k) (Base64.bytes message)))))
    as (body & -> & Hbody); [by rewrite length_bytes_ofBytes, length_hmac|].
  split.
  - rewrite length_string_of_list_ascii, length_app, Hbody. reflexivity.
  - exists (string_of_list_ascii body). by rewrite string_of_list_ascii_app.
Qed.

(** ** Decoding what was encoded *)

Local Open Scope Z_scope.

(** A test that holds of the numbers below [n] holds of each of them. *)
Lemma below_cases (n : nat) (P : Z -> bool) :
  forallb P (map Z.of_nat (seq 0 n)) = true ->
  forall b, 0 <= b < Z.of_nat n -> P b = true.
Proof.
  intros H b Hb. rewrite forallb_forall in H. apply H.
  apply in_map_iff. exists (Z.to_nat b). split; [lia|]. apply in_seq. lia.
Qed.

Lemma below_cases2 (n m : nat) (P : Z -> Z -> bool) :
  forallb (fun a => forallb (P a) (map Z.of_nat (seq 0 m)))
          (map Z.of_nat (seq 0 n)) = true ->
  forall a b, 0 <= a < Z.of_nat n -> 0 <= b < Z.of_nat m -> P a b = true.
Proof.
  intros H a b Ha Hb.
  apply (below_cases m (P a)); [|done].
  by apply (below_cases n (fun a => forallb (P a) (map Z.of_nat (seq 0 m)))).
Qed.

Lemma decodeChar_encodeChar (v : Z) :
  0 <= v < 64 -> Base64.decodeChar (Base64.encodeChar v) = Some v.
Proof.
  intros Hv.
  apply (below_cases 64
           (fun v => bool_decide
                       (Base64.decodeChar (Base64.encodeChar v) = Some v)))
    in Hv; [by apply bool_decide_eq_true_1 in Hv|by vm_compute].
Qed.

Lemma encodeChar_no_line_break (v : Z) :
  Base64.isLineBreak (Base64.encodeChar v) = false.
Proof.
  unfold Base64.encodeChar. generalize (Z.to_nat v). intros n.
  do 65 (destruct n as [|n]; [reflexivity|]). reflexivity.
Qed.

Lemma encode_no_line_break (l : list Z) :
  List.filter (fun c => negb (Base64.isLineBreak c)) (Base64.encode l)
  = Base64.encode l.
Proof.
  assert (forall n l, (length l <= n)%nat ->
          List.filter (fun c => negb (Base64.isLineBreak c)) (Base64.encode l)
          = Base64.encode l) as H; [|by apply (H (length l))].
  clear l. induction n as [|n IH]; intros l Hl.
  - destruct l; [done|simpl in Hl; lia].
  - destruct l as [|b0 [|b1 [|b2 l]]]; cbn [Base64.encode List.filter];
      rewrite ?encodeChar_no_line_break; cbn [negb]; try reflexivity.
    rewrite IH by (simpl in Hl; lia). reflexivity.
Qed.

(** The four values of a group of three bytes, and the bytes back. *)
Lemma group_first (b0 b1 : Z) :
  0 <= b0 < 256 -> 0 <= b1 < 256 ->
  (0 <= Z.shiftr b0 2 < 64)
  /\ (0 <= Z.land (Z.lor (Z.shiftl b0 4) (Z.shiftr b1 4)) 63 < 64)
  /\ Z.lor (Z.shiftl (Z.shiftr b0 2) 2)
           (Z.shiftr (Z.land (Z.lor (Z.shiftl b0 4) (Z.shiftr b1 4)) 63) 4) = b0
  /\ Z.land (Z.lor (Z.shiftl b0 4) (Z.shiftr b1 4)) 63 mod 16 = b1 / 16.
Proof.
  intros H0 H1.
  pose proof (below_cases2 256 256
    (fun b0 b1 =>
       let v0 := Z.shiftr b0 2 in
       let v1 := Z.land (Z.lor (Z.shiftl b0 4) (Z.shiftr b1 4)) 63 in
       (0 <=? v0) && (v0 <? 64) && (0 <=? v1) && (v1 <? 64)
       && (Z.lor (Z.shiftl v0 2) (Z.shiftr v1 4) =? b0)
       && (v1 mod 16 =? b1 / 16))) as H.
  specialize (H ltac:(by vm_compute) b0 b1 H0 H1). cbv zeta in H.
  repeat (apply andb_prop in H as [H ?]). lia.
Qed.

Lemma group_last (b1 b2 : Z) :
  0 <= b1 < 256 -> 0 <= b2 < 256 ->
  (0 <= Z.land (Z.lor (Z.shiftl b1 2) (Z.shiftr b2 6)) 63 < 64)
  /\ (0 <= Z.land b2 63 < 64)
  /\ Z.land (Z.lor (Z.shiftl (Z.land (Z.lor (Z.shiftl b1 2) (Z.shiftr b2 6)) 63) 6)
                   (Z.land b2 63)) 255 = b2
  /\ Z.land (Z.lor (Z.shiftl b1 2) (Z.shiftr b2 6)) 63 / 4 = b1 mod 16.
Proof.
  intros H1 H2.
  pose proof (below_cases2 256 256
    (fun b1 b2 =>
       let v2 := Z.land (Z.lor (Z.shiftl b1 2) (Z.shiftr b2 6)) 63 in
       let v3 := Z.land b2 63 in
       (0 <=? v2) && (v2 <? 64) && (0 <=? v3) && (v3 <? 64)
       && (Z.land (Z.lor (Z.shiftl v2 6) v3) 255 =? b2)
       && (v2 / 4 =? b1 mod 16))) as H.
  specialize (H ltac:(by vm_compute) b1 b2 H1 H2). cbv zeta in H.
  repeat (apply andb_prop in H as [H ?]). lia.
Qed.

Lemma group_middle (v1 v2 : Z) :
  0 <= v1 < 64 -> 0 <= v2 < 64 ->
  Z.land (Z.lor (Z.shiftl v1 4) (Z.shiftr v2 2)) 255 = v1 mod 16 * 16 + v2 / 4.
Proof.
  intros H1 H2.
  pose proof (below_cases2 64 64
    (fun v1 v2 =>
       Z.land (Z.lor (Z.shiftl v1 4) (Z.shiftr v2 2)) 255
       =? v1 mod 16 * 16 + v2 / 4)) as H.
  specialize (H ltac:(by vm_compute) v1 v2 H1 H2). by apply Z.eqb_eq.
Qed.

(** The last group of one byte and of two. *)
Lemma group_one (b0 : Z) :
  0 <= b0 < 256 ->
  Base64.decode (Base64.encode [b0]) = Some [b0].
Proof.
  intros H0.
  apply (below_cases 256
           (fun b0 => bool_decide
                        (Base64.decode (Base64.encode [b0]) = Some [b0])))
    in H0; [by apply bool_decide_eq_true_1 in H0|by vm_compute].
Qed.

Lemma group_two (b0 b1 : Z) :
  0 <= b0 < 256 -> 0 <= b1 < 256 ->
  Base64.decode (Base64.encode [b0; b1]) = Some [b0; b1].
Proof.
  intros H0 H1.
  pose proof (below_cases2 256 256
    (fun b0 b1 => bool_decide
                    (Base64.decode (Base64.encode [b0; b1]) = Some [b0; b1])))
    as H.
  specialize (H ltac:(by vm_compute) b0 b1 H0 H1).
  by apply bool_decide_eq_true_1 in H.
Qed.

Lemma decode_encode (l : list Z) :
  Forall (fun b => 0 <= b < 256) l ->
  Base64.decode (Base64.encode l) = Some l.
Proof.
  assert (forall n l, (length l <= n)%nat ->
          Forall (fun b => 0 <= b < 256) l ->
          Base64.decode (Base64.encode l) = Some l) as H;
    [|by apply (H (length l))].
  clear l. induction n as [|n IH]; intros l Hl Hb.
  - destruct l; [done|simpl in Hl; lia].
  - destruct l as [|b0 [|b1 [|b2 l]]]; [done|..].
    + apply group_one. by apply Forall_cons in Hb as [H0 _].
    + apply Forall_cons in Hb as [H0 Hb]. apply Forall_cons in Hb as [H1 _].
      by apply group_two.
    + apply Forall_cons in Hb as [H0 Hb]. apply Forall_cons in Hb as [H1 Hb].
      apply Forall_cons in Hb as [H2 Hb].
      destruct (group_first b0 b1 H0 H1) as (R0 & R1 & E0 & M1).
      destruct (group_last b1 b2 H1 H2) as (R2 & R3 & E2 & M2).
      pose proof (group_middle _ _ R1 R2) as E1.
      cbn [Base64.encode Base64.decode].
      rewrite !decodeChar_encodeChar by done.
      cbn [mbind option_bind].
      rewrite IH by (done || simpl in Hl; lia).
      cbn [mbind option_bind]. rewrite E0, E1, E2, M1, M2.
      by replace (b1 / 16 * 16 + b1 mod 16) with b1
        by (pose proof (Z.div_mod b1 16); lia).
Qed.

Lemma ofBytes_bytes (s : string) : Base64.ofBytes (Base64.bytes s) = s.
Proof.
  unfold Base64.ofBytes, Base64.bytes. rewrite map_map.
  induction s as [|c s IH]; simpl; [done|].
  by rewrite Nat2Z.id, ascii_nat_embedding, IH.
Qed.

Lemma bytes_range (s : string) :
  Forall (fun b => 0 <= b < 256) (Base64.bytes s).
Proof.
  unfold Base64.bytes. apply List.Forall_forall. intros b Hb.
  apply in_map_iff in Hb as (c & <- & _).
  pose proof (nat_ascii_bounded c). lia.
Qed.

Lemma DecodeString_EncodeToString (k : string) :
  Base64.DecodeString (Base64.EncodeToString k) = Some k.
Proof.
  unfold Base64.DecodeString, Base64.EncodeToString.
  rewrite list_ascii_of_string_of_list_ascii, encode_no_line_break.
  rewrite decode_encode by apply bytes_range.
  simpl. by rewrite ofBytes_bytes.
Qed.

Local Close Scope Z_scope.

(** The base64 text of any key is a secret that [generateSig] accepts, and
    the signature is then the base64 text of the HMAC-SHA256 of the message
    under that key. *)
Theorem generateSig_encoded_secret (auth : APIKey) (k message : string) :
  secret auth = Base64.EncodeToString k ->
  generateSig auth message
  = inl (Base64.EncodeToString
           (Base64.ofBytes (SHA256.hmac (Base64.bytes k) (Base64.bytes message)))).
Proof.
  intros H. unfold generateSig.
  by rewrite H, DecodeString_EncodeToString.
Qed.

Lemma generateSig_encoded_secret_witness :
  generateSig exampleAPIKey "1700000000GET/orders"
  = inl (Base64.EncodeToString
           (Base64.ofBytes
              (SHA256.hmac (Base64.bytes "secret")
                           (Base64.bytes "1700000000GET/orders")))).
Proof.
  apply (generateSig_encoded_secret exampleAPIKey "secret").
  reflexivity.
Defined.

(** ** The message *)

Lemma Replace1_eq (s old new : string) :
  Replace1 s old new
  = if String.prefix old s
    then new +:+ String.substring (String.length old) (String.length s) s
    else match s with
         | EmptyString => EmptyString
         | String c s' => String c (Replace1 s' old new)
         end.
Proof. by destruct s. Qed.

Lemma prefix_append (p r : string) : String.prefix p (p +:+ r) = true.
Proof.
  induction p as [|c p IH]; simpl; [by destruct r|].
  by destruct (ascii_dec c c).
Qed.

Lemma substring_all (r : string) (m : nat) :
  String.length r <= m -> String.substring 0 m r = r.
Proof.
  revert m. induction r as [|c r IH]; intros m Hm; simpl; [by destruct m|].
  destruct m as [|m]; simpl in *; [lia|]. rewrite IH; [done|lia].
Qed.

Lemma substring_append (p r : string) (m : nat) :
  String.length r <= m -> String.substring (String.length p) m (p +:+ r) = r.
Proof.
  intros Hm. induction p as [|c p IH]; simpl; [by apply substring_all|done].
Qed.

Lemma length_append (p r : string) :
  String.length (p +:+ r) = String.length p + String.length r.
Proof. induction p as [|c p IH]; simpl; [done|]. by rewrite IH. Qed.

Lemma Replace1_prefix (p r : string) : Replace1 (p +:+ r) p "" = r.
Proof.
  rewrite Replace1_eq, prefix_append. simpl.
  apply substring_append. rewrite length_append. lia.
Qed.

Lemma append_cons (x : ascii) (a b : string) :
  String x a +:+ b = String x (a +:+ b).
Proof. reflexivity. Qed.

Lemma append_assoc (a b c : string) : (a +:+ b) +:+ c = a +:+ (b +:+ c).
Proof. induction a as [|x a IH]; [done|]. by rewrite !append_cons, IH. Qed.

Lemma append_nil_r (a : string) : a +:+ "" = a.
Proof. induction a as [|x a IH]; [done|]. by rewrite append_cons, IH. Qed.

Lemma eqb_empty_false (s : string) : s <> "" -> String.eqb s "" = false.
Proof. intros H. by apply String.eqb_neq. Qed.

Lemma prefix_slash (p : string) :
  String.prefix "/" p = true -> exists p', p = String "/" p'.
Proof.
  destruct p as [|c p]; [done|].
  change (String.prefix "/" (String c p))
    with (if ascii_dec "/" c then String.prefix "" p else false).
  destruct (ascii_dec "/" c) as [<-|]; [eauto|done].
Qed.



Lemma Contains_eq (s substr : string) :
  Contains s substr
  = String.prefix substr s
    || match s with
       | EmptyString => false
       | String _ s' => Contains s' substr
       end.
Proof. by destruct s. Qed.

Lemma Replace1_absent (s old new : string) :
  Contains s old = false -> Replace1 s old new = s.
Proof.
  induction s as [|c s IH]; rewrite Contains_eq, Replace1_eq;
    intros [-> H]%orb_false_elim; [done|].
  by rewrite IH.
Qed.

(** When the text of the URL of the key does not occur in the text of the
    URL of the request, as for a request to another host, the message holds
    the whole text of the URL of the request, scheme and host included.
    This holds whatever text [URL.String] gives. *)
Theorem generageMsg_foreign_url
    (URLString : URL -> string)
    (auth : APIKey) (u : URL) (req : Request) (timestamp : string) :
  url auth = Some u ->
  Contains (URLString (ReqURL req)) (URLString u) = false ->
  generageMsg URLString auth req timestamp
  = Some (timestamp +:+ Method req +:+ URLString (ReqURL req)
          +:+ default "" (Body req),
          req).
Proof.
  intros Hu Hc. unfold generageMsg. rewrite Hu. simpl.
  by rewrite parsebytes_eq, Replace1_absent.
Qed.

Lemma generageMsg_foreign_url_witness :
  generageMsg URLString exampleAPIKey exampleRequest "1700000000"
  = Some ("1700000000" +:+ "POST" +:+ URLString (ReqURL exampleRequest)
          +:+ default "" (Body exampleRequest),
          exampleRequest).
Proof.
  apply (generageMsg_foreign_url URLString exampleAPIKey
           (mkURL "https" "api.exchange.coinbase.com" "" "")
           exampleRequest "1700000000"); reflexivity.
Defined.

(** ** The message for a URL of the kind of [Http.URL] *)

Lemma escape_append (a b : string) (mode : encoding) :
  escape (a +:+ b) mode = escape a mode +:+ escape b mode.
Proof.
  induction a as [|c a IH]; [done|].
  rewrite append_cons. cbn [escape]. rewrite IH.
  by destruct (shouldEscape c mode).
Qed.

(** [URL.String] of a URL with a host whose path is empty or starts with
    a slash. *)
Lemma URLString_rooted (scheme host path query : string) :
  host <> "" ->
  (path = "" \/ String.prefix "/" path = true) ->
  URLString (mkURL scheme host path query)
  = (if String.eqb scheme "" then "" else scheme +:+ ":")
    +:+ "//" +:+ escape host encodeHost +:+ escape path encodePath
    +:+ (if String.eqb query "" then "" else "?" +:+ query).
Proof.
  intros Hh Hp. unfold URLString, EscapedPath. cbn [Scheme Host Path RawQuery].
  rewrite (eqb_empty_false host Hh), andb_false_r. cbn [andb negb].
  assert (String.eqb path "*" = false) as ->
    by (by destruct Hp as [->|[p' ->]%prefix_slash]).
  assert (match escape path encodePath with
          | String c _ => if negb (Ascii.eqb c "/") && true then "/" else ""
          | EmptyString => ""
          end = "") as ->
    by (by destruct Hp as [->|[p' ->]%prefix_slash]).
  match goal with
  | |- context [String.eqb ?x "" && _] =>
      assert (String.eqb x "" = false) as ->
        by (by destruct (String.eqb scheme ""), scheme)
  end.
  reflexivity.
Qed.

(** For a request below the URL of the key (same scheme and host, the path
    of the key followed by [rest]), the message is the time stamp, the
    method, [rest] escaped as a path is, the query, and the body. *)
Theorem generageMsg_escaped_rest
    (auth : APIKey) (u : URL) (req : Request) (timestamp rest query : string) :
  url auth = Some u ->
  Host u <> "" ->
  RawQuery u = "" ->
  (Path u = "" \/ String.prefix "/" (Path u) = true) ->
  (Path u = "" -> rest = "" \/ String.prefix "/" rest = true) ->
  ReqURL req = mkURL (Scheme u) (Host u) (Path u +:+ rest) query ->
  generageMsg URLString auth req timestamp
  = Some (timestamp +:+ Method req
          +:+ (escape rest encodePath
               +:+ (if String.eqb query "" then "" else "?" +:+ query))
          +:+ default "" (Body req),
          req).
Proof.
  intros Hu Hh Hq Hp Hr Hreq. unfold generageMsg. rewrite Hu. simpl.
  rewrite parsebytes_eq, Hreq.
  rewrite URLString_rooted; [|done|].
  2:{ destruct Hp as [Hp|[p' Hp]%prefix_slash]; rewrite Hp; [by apply Hr|].
      right. rewrite append_cons. by destruct (p' +:+ rest). }
  destruct u as [s h p q]. simpl in *. subst q.
  rewrite URLString_rooted by done. simpl.
  rewrite append_nil_r, escape_append.
  replace ((if String.eqb s "" then "" else s +:+ ":") +:+ "//"
           +:+ escape h encodeHost
           +:+ (escape p encodePath +:+ escape rest encodePath)
           +:+ (if String.eqb query "" then "" else "?" +:+ query))
    with (((if String.eqb s "" then "" else s +:+ ":") +:+ "//"
           +:+ escape h encodeHost +:+ escape p encodePath)
          +:+ (escape rest encodePath
               +:+ (if String.eqb query "" then "" else "?" +:+ query)))
    by (by rewrite !append_assoc).
  by rewrite Replace1_prefix.
Qed.

Lemma generageMsg_escaped_rest_witness :
  generageMsg URLString exampleAPIKey
    (mkRequest "GET"
               (mkURL "https" "api.exchange.coinbase.com" "/orders/a b" "limit=1")
               ∅ None)
    "1700000000"
  = Some ("1700000000" +:+ "GET"
          +:+ (escape "/orders/a b" encodePath +:+ "?limit=1") +:+ "",
          mkRequest "GET"
                    (mkURL "https" "api.exchange.coinbase.com" "/orders/a b"
                           "limit=1")
                    ∅ None).
Proof.
  apply (generageMsg_escaped_rest exampleAPIKey
           (mkURL "https" "api.exchange.coinbase.com" "" "")
           (mkRequest "GET"
              (mkURL "https" "api.exchange.coinbase.com" "/orders/a b" "limit=1")
              ∅ None)
           "1700000000" "/orders/a b" "limit=1");
    simpl; auto; discriminate.
Defined.

(** ** Signing again *)

(** The request that [RoundTrip] has signed can be signed again, as when the
    same request is sent a second time: its URL stays, the content type
    stays, and each of the four headers of the signature then holds a second
    value after the first. *)
Theorem signing_again_accumulates
    (URLString : URL -> string)
    (auth : APIKey) (now1 now2 : Z) (req req1 : Request) :
  authorize URLString auth now1 req = Some (inl req1) ->
  exists (req2 : Request) (sig1 sig2 : string),
    authorize URLString auth now2 req1 = Some (inl req2)
    /\ ReqHeader req1 !! "Cb-Access-Sign"
       = Some (default [] (ReqHeader req !! "Cb-Access-Sign") ++ [sig1])
    /\ ReqHeader req2 !! "Cb-Access-Sign"
       = Some (default [] (ReqHeader req !! "Cb-Access-Sign") ++ [sig1; sig2])
    /\ ReqHeader req2 !! "Cb-Access-Timestamp"
       = Some (default [] (ReqHeader req !! "Cb-Access-Timestamp")
               ++ [FormatInt now1; FormatInt now2])
    /\ ReqHeader req2 !! "Cb-Access-Key"
       = Some (default [] (ReqHeader req !! "Cb-Access-Key")
               ++ [key auth; key auth])
    /\ ReqHeader req2 !! "Cb-Access-Passphrase"
       = Some (default [] (ReqHeader req !! "Cb-Access-Passphrase")
               ++ [passphrase auth; passphrase auth])
    /\ ReqHeader req2 !! "Content-Type" = Some ["application/json"]
    /\ ReqURL req2 = ReqURL req1
    /\ Method req2 = Method req
    /\ Body req2 = Body req.
Proof.
  rewrite !authorize_unfold. destruct (url auth) as [u|]; [|discriminate].
  unfold generateSig.
  destruct (Base64.DecodeString (secret auth)) as [k|]; [|discriminate].
  intros [= <-]. cbn [Method ReqURL ReqHeader Body Path RawQuery].
  eexists _, _, _. split; [reflexivity|].
  cbn [Method ReqURL ReqHeader Body Path RawQuery].
  repeat split; header_lookup; try done;
    cbn [default from_option id]; by rewrite <- List.app_assoc.
Qed.

Lemma signing_again_accumulates_witness :
  exists (req2 : Request) (sig1 sig2 : string),
    authorize URLString exampleAPIKey 1700000060 exampleSigned = Some (inl req2)
    /\ ReqHeader exampleSigned !! "Cb-Access-Sign"
       = Some (default [] (ReqHeader exampleRequest !! "Cb-Access-Sign") ++ [sig1])
    /\ ReqHeader req2 !! "Cb-Access-Sign"
       = Some (default [] (ReqHeader exampleRequest !! "Cb-Access-Sign")
               ++ [sig1; sig2])
    /\ ReqHeader req2 !! "Cb-Access-Timestamp"
       = Some (default [] (ReqHeader exampleRequest !! "Cb-Access-Timestamp")
               ++ [FormatInt 1700000000; FormatInt 1700000060])
    /\ ReqHeader req2 !! "Cb-Access-Key"
       = Some (default [] (ReqHeader exampleRequest !! "Cb-Access-Key")
               ++ [key exampleAPIKey; key exampleAPIKey])
    /\ ReqHeader req2 !! "Cb-Access-Passphrase"
       = Some (default [] (ReqHeader exampleRequest !! "Cb-Access-Passphrase")
               ++ [passphrase exampleAPIKey; passphrase exampleAPIKey])
    /\ ReqHeader req2 !! "Content-Type" = Some ["application/json"]
    /\ ReqURL req2 = ReqURL exampleSigned
    /\ Method req2 = Method exampleRequest
    /\ Body req2 = Body exampleRequest.
Proof.
  apply (signing_again_accumulates URLString exampleAPIKey 1700000000 1700000060
           exampleRequest exampleSigned).
  by vm_compute.
Defined.
